(** * Pulse IR: addressing model, instruction model, program graph and the
      sequence-consolidation pass

    A shallow embedding of
      - qiskit/pulse/logical_elements_frames.py  (module [Model]),
      - qiskit/pulse/pulse_ir.py                 (module [LegacyIR]),
      - qiskit/pulse/ir/ir.py                    (module [IR]),
      - qiskit/pulse/compiler/passes/consolidate_sequences.py
                                                 (module [Consolidate]),
    together with a model of the part of rustworkx's [PyDAG] these files
    call (module [Dag]).  Python exceptions are values of [exn]; a call that
    may raise returns a [result]. *)

From Stdlib Require Import ZArith QArith Qcanon String Ascii.
From Stdlib Require Import Decimal DecimalString DecimalZ DecimalPos.
From stdpp Require Import base decidable option list numbers countable strings gmap.
From stdpp Require Import sorting.

Set Warnings "-register-all,-clear-no-such-hyp".
Local Open Scope Z_scope.

(** ** Python values and exceptions *)

Module Py.

(** The exception classes raised by the embedded code. *)
Inductive exn : Type :=
| PulseError
| PulseCompilerError
| TypeError
| AttributeError
| IndexError.

Inductive result (A : Type) : Type :=
| Ok (a : A)
| Raise (e : exn).

Arguments Ok {A} a.
Arguments Raise {A} e.

Definition bind {A B : Type} (m : result A) (k : A -> result B) : result B :=
  match m with
  | Ok a => k a
  | Raise e => Raise e
  end.

Definition is_ok {A : Type} (m : result A) : bool :=
  match m with Ok _ => true | Raise _ => false end.

(** Dynamically typed arguments of the constructors.  Numbers that Python
    stores as [float] are rationals here; [nan] and the infinities have no
    counterpart. *)
Inductive pyval : Type :=
| PNone
| PInt (z : Z)
| PFloat (q : Qc)
| PStr (s : string).

(** [isinstance(v, (int, np.integer))] *)
Definition is_int (v : pyval) : bool :=
  match v with PInt _ => true | _ => false end.

(** [v is None] *)
Definition is_None (v : pyval) : bool :=
  match v with PNone => true | _ => false end.

(** [v < 0]: ordering [None] or a string against an integer raises
    [TypeError]. *)
Definition lt_zero (v : pyval) : result bool :=
  match v with
  | PInt z => Ok (z <? 0)
  | PFloat q => Ok (if Qclt_le_dec q 0%Qc then true else false)
  | PNone | PStr _ => Raise TypeError
  end.

(** [isinstance(v, (int, np.integer)) and v >= 0] *)
Definition is_nonneg_int (v : pyval) : bool :=
  match v with PInt z => 0 <=? z | _ => false end.

(** [a or b] with [a] already evaluated and [b] still to run. *)
Definition or_else (a : bool) (b : result bool) : result bool :=
  if a then Ok true else b.

(** [str(z)] for an integer. *)
Definition str_of_Z (z : Z) : string := NilZero.string_of_int (Z.to_int z).

(** What [hash] is applied to.  [hash] itself is a parameter of the
    sections below: all that is used is that it is a function. *)
Inductive hashable : Type :=
| HNone
| HNum (q : Qc)
| HStr (s : string)
| HInt (z : Z)
| HTuple (l : list hashable).

End Py.

Export Py.

Global Instance result_ret : MRet result := fun A a => Ok a.
Global Instance result_bind : MBind result := fun A B k m => Py.bind m k.
Global Instance result_fmap : FMap result :=
  fun A B f m => match m with Ok a => Ok (f a) | Raise e => Raise e end.

(** ** Addressing model: qiskit/pulse/logical_elements_frames.py *)

Module Model.

Section WithHash.

(** Python's built-in [hash]. *)
Variable py_hash : hashable -> Z.

(** *** Logical elements *)

(** The two concrete subclasses of [LogicalElement]; the field is [_index]. *)
Inductive LogicalElement : Type :=
| Qubit (index : Z)
| Coupler (qubit_index_1 qubit_index_2 : Z).

(** [Qubit._validate_index] and the loop body of [Coupler._validate_index]. *)
Definition validate_qubit_index (index : pyval) : result Z :=
  bad ← or_else (negb (is_int index)) (lt_zero index);
  if bad : bool then Raise PulseError
  else match index with PInt z => Ok z | _ => Raise PulseError end.

(** [Qubit(index)] *)
Definition Qubit_new (index : pyval) : result LogicalElement :=
  z ← validate_qubit_index index; Ok (Qubit z).

(** [Coupler(qubit_index_1, qubit_index_2)] *)
Definition Coupler_new (qubit_index_1 qubit_index_2 : pyval)
  : result LogicalElement :=
  i ← validate_qubit_index qubit_index_1;
  j ← validate_qubit_index qubit_index_2;
  Ok (Coupler i j).

(** The [name] property: [f"Q{index}"] and [f"Coupler{index}"], the latter
    formatting the tuple. *)
Definition LogicalElement_name (e : LogicalElement) : string :=
  match e with
  | Qubit i => "Q" +:+ str_of_Z i
  | Coupler i j => "Coupler(" +:+ str_of_Z i +:+ ", " +:+ str_of_Z j +:+ ")"
  end.

(** [type(self) is type(other)] *)
Definition LogicalElement_same_type (a b : LogicalElement) : bool :=
  match a, b with
  | Qubit _, Qubit _ | Coupler _ _, Coupler _ _ => true
  | _, _ => false
  end.

(** [self._index == other._index] *)
Definition LogicalElement_index_eq (a b : LogicalElement) : bool :=
  match a, b with
  | Qubit i, Qubit j => i =? j
  | Coupler i1 i2, Coupler j1 j2 => (i1 =? j1) && (i2 =? j2)
  | _, _ => false
  end.

(** [LogicalElement.__eq__] *)
Definition LogicalElement_eq (a b : LogicalElement) : bool :=
  LogicalElement_same_type a b && LogicalElement_index_eq a b.

(** [LogicalElement.__hash__]: the stored [hash(self.name)]. *)
Definition LogicalElement_hash (e : LogicalElement) : Z :=
  py_hash (HStr (LogicalElement_name e)).

(** *** Frames *)

(** The three concrete frame classes.  A [GenericFrame] stores [_name],
    [_frequency] and [_phase]; [_phase] is [None] when the argument is
    omitted. *)
Inductive Frame : Type :=
| GenericFrame (_name : string) (_frequency : Qc) (_phase : option Qc)
| QubitFrame (_index : Z)
| MeasurementFrame (_index : Z).

(** [QubitFrame(qubit_index)] and [MeasurementFrame(qubit_index)] *)
Definition QubitFrame_new (qubit_index : pyval) : result Frame :=
  z ← validate_qubit_index qubit_index; Ok (QubitFrame z).

Definition MeasurementFrame_new (qubit_index : pyval) : result Frame :=
  z ← validate_qubit_index qubit_index; Ok (MeasurementFrame z).

(** The [_name] attribute: set by [GenericFrame.__init__] from its argument,
    and by [Frame.__init__(self.name)] for the two indexed frames. *)
Definition Frame_name (f : Frame) : string :=
  match f with
  | GenericFrame n _ _ => n
  | QubitFrame i => "QubitFrame" +:+ str_of_Z i
  | MeasurementFrame i => "MeasurementFrame" +:+ str_of_Z i
  end.

(** The [phase] property of [GenericFrame]:
    [0 if self._phase is None else self._phase]. *)
Definition GenericFrame_phase (_phase : option Qc) : Qc :=
  match _phase with None => 0%Qc | Some p => p end.

Definition Frame_same_type (a b : Frame) : bool :=
  match a, b with
  | GenericFrame _ _ _, GenericFrame _ _ _
  | QubitFrame _, QubitFrame _
  | MeasurementFrame _, MeasurementFrame _ => true
  | _, _ => false
  end.

(** [==] on numbers, and on attributes that hold a number or [None]. *)
Definition num_eq (p q : Qc) : bool := bool_decide (p = q).

Definition opt_num_eq (p q : option Qc) : bool :=
  match p, q with
  | None, None => true
  | Some x, Some y => num_eq x y
  | _, _ => false
  end.

(** [a == b] for frames: [GenericFrame.__eq__] when [a] is a generic frame,
    the inherited [Frame.__eq__] otherwise. *)
Definition Frame_eq (a b : Frame) : bool :=
  match a with
  | GenericFrame n fr ph =>
      Frame_same_type a b &&
      match b with
      | GenericFrame n' fr' ph' =>
          String.eqb n n' && num_eq fr fr' && opt_num_eq ph ph'
      | _ => false
      end
  | _ => Frame_same_type a b && String.eqb (Frame_name a) (Frame_name b)
  end.

(** [__hash__]: the [_hash] stored by the constructor. *)
Definition Frame_hash (f : Frame) : Z :=
  match f with
  | GenericFrame n fr ph =>
      py_hash (HTuple [HStr n; HNum fr;
                       match ph with None => HNone | Some p => HNum p end])
  | _ => py_hash (HStr (Frame_name f))
  end.

(** *** Mixed frames *)

(** [CRMixedFrame] subclasses [MixedFrame] and adds no state; the class of
    the object is kept as a tag. *)
Inductive MixedFrameClass : Type := ClsMixedFrame | ClsCRMixedFrame.

Record MixedFrame : Type := mkMixedFrame
  { mf_class : MixedFrameClass;
    _logical_element : LogicalElement;
    _frame : Frame }.

(** [MixedFrame(logical_element, frame)] *)
Definition MixedFrame_new (logical_element : LogicalElement) (frame : Frame)
  : MixedFrame :=
  mkMixedFrame ClsMixedFrame logical_element frame.

(** [CRMixedFrame(qubit, qubit_frame)]:
    [super().__init__(logical_element=qubit, frame=qubit_frame)]. *)
Definition CRMixedFrame_new (qubit : LogicalElement) (qubit_frame : Frame)
  : MixedFrame :=
  mkMixedFrame ClsCRMixedFrame qubit qubit_frame.

(** [MixedFrame.__eq__], inherited unchanged by [CRMixedFrame]. *)
Definition MixedFrame_eq (a b : MixedFrame) : bool :=
  LogicalElement_eq (_logical_element a) (_logical_element b)
  && Frame_eq (_frame a) (_frame b).

(** [MixedFrame.__hash__]: [hash((self._logical_element, self._frame))]. *)
Definition MixedFrame_hash (m : MixedFrame) : Z :=
  py_hash (HTuple [HInt (LogicalElement_hash (_logical_element m));
                   HInt (Frame_hash (_frame m))]).

End WithHash.

End Model.

(** Structural equality on the addressing values, and their enumerations:
    what a Python [set] of them needs. *)

Global Instance LogicalElement_eq_dec : EqDecision Model.LogicalElement.
Proof. solve_decision. Defined.

Global Instance Frame_eq_dec : EqDecision Model.Frame.
Proof. solve_decision. Defined.

Global Instance MixedFrameClass_eq_dec : EqDecision Model.MixedFrameClass.
Proof. solve_decision. Defined.

Global Instance MixedFrame_eq_dec : EqDecision Model.MixedFrame.
Proof. solve_decision. Defined.

Global Instance LogicalElement_countable : Countable Model.LogicalElement.
Proof.
  refine (inj_countable'
    (fun e => match e with
              | Model.Qubit i => inl i
              | Model.Coupler i j => inr (i, j)
              end)
    (fun s => match s with
              | inl i => Model.Qubit i
              | inr (i, j) => Model.Coupler i j
              end) _).
  intros []; reflexivity.
Defined.

Global Instance Frame_countable : Countable Model.Frame.
Proof.
  refine (inj_countable'
    (fun f => match f with
              | Model.GenericFrame n fr ph => inl (n, fr, ph)
              | Model.QubitFrame i => inr (inl i)
              | Model.MeasurementFrame i => inr (inr i)
              end)
    (fun s => match s with
              | inl (n, fr, ph) => Model.GenericFrame n fr ph
              | inr (inl i) => Model.QubitFrame i
              | inr (inr i) => Model.MeasurementFrame i
              end) _).
  intros []; reflexivity.
Defined.

Global Instance MixedFrame_countable : Countable Model.MixedFrame.
Proof.
  refine (inj_countable'
    (fun m => (match Model.mf_class m with
               | Model.ClsMixedFrame => false
               | Model.ClsCRMixedFrame => true
               end, Model._logical_element m, Model._frame m))
    (fun t => match t with
              | (c, l, f) =>
                  Model.mkMixedFrame
                    (if c : bool then Model.ClsCRMixedFrame
                     else Model.ClsMixedFrame) l f
              end) _).
  intros [[] ? ?]; reflexivity.
Defined.

(** ** Alignment kinds: qiskit.pulse.transforms

    The alignment classes are defined outside the files embedded here; the
    code below only tests their class and compares them. *)

Module Transforms.

Inductive AlignmentKind : Type :=
| AlignLeft
| AlignRight
| AlignSequential
| AlignEquispaced (duration : Z)
| AlignFunc (duration : Z) (func : nat).

(** [isinstance(a, AlignSequential)] *)
Definition is_AlignSequential (a : AlignmentKind) : bool :=
  match a with AlignSequential => true | _ => false end.

(** [isinstance(a, (AlignLeft, AlignRight, AlignSequential))] *)
Definition is_single_instruction_unnecessary (a : AlignmentKind) : bool :=
  match a with
  | AlignLeft | AlignRight | AlignSequential => true
  | _ => false
  end.

End Transforms.

Export Transforms.

Global Instance AlignmentKind_eq_dec : EqDecision AlignmentKind.
Proof. solve_decision. Defined.

(** ** Instruction model and list-based container: qiskit/pulse/pulse_ir.py *)

Module LegacyIR.

Import Model.

(** Operands: a waveform ([SymbolicPulse] or [Waveform], of which only the
    [duration] attribute is read) or a plain value. *)
Inductive Operand : Type :=
| OpPulse (duration : pyval)
| OpVal (v : pyval).

Record BaseIRInstruction : Type := mkBase
  { _duration : pyval;
    _operand : Operand;
    _t0 : pyval }.

(** [BaseIRInstruction.__init__].  The second test parses as
    [(t0 is not None and not isinstance(t0, ...)) or (t0 < 0)]. *)
Definition BaseIRInstruction_init (duration : pyval) (operand : Operand)
  (t0 : pyval) : result BaseIRInstruction :=
  bad_duration ← or_else (negb (is_int duration)) (lt_zero duration);
  if bad_duration : bool then Raise PulseError
  else
    bad_t0 ← or_else
               (negb (is_None t0) && negb (is_int t0))
               (lt_zero t0);
    if bad_t0 : bool then Raise PulseError
    else Ok (mkBase duration operand t0).



Record GenericInstruction : Type := mkGeneric
  { _instruction_type : string;
    _logical_element : option LogicalElement;
    _frame : option Frame;
    generic_base : BaseIRInstruction }.

Definition allowed_types : list string :=
  ["Play"; "Delay"; "SetFrequency"; "ShiftFrequency"; "SetPhase";
   "ShiftPhase"]%string.

Definition is_int_operand (o : Operand) : bool :=
  match o with OpVal v => is_int v | OpPulse _ => false end.

Definition is_float_operand (o : Operand) : bool :=
  match o with OpVal (PFloat _) => true | _ => false end.

(** [GenericInstruction._validate_instruction]: the duration, or
    [PulseError]. *)
Definition _validate_instruction (instruction_type : string)
  (operand : Operand) (logical_element : option LogicalElement)
  (frame : option Frame) : result pyval :=
  if negb (bool_decide (instruction_type ∈ allowed_types)) then
    Raise PulseError
  else if String.eqb instruction_type "Delay" then
    match operand with
    | OpVal v =>
        bad ← or_else (negb (is_int v)) (lt_zero v);
        if bad : bool then Raise PulseError
        else if bool_decide (logical_element = None) then Raise PulseError
        else Ok v
    | OpPulse _ => Raise PulseError
    end
  else if String.eqb instruction_type "Play" then
    match operand with
    | OpPulse d =>
        if bool_decide (logical_element = None)
           || bool_decide (frame = None)
        then Raise PulseError
        else Ok d
    | OpVal _ => Raise PulseError
    end
  else
    if negb (is_int_operand operand || is_float_operand operand) then
      Raise PulseError
    else if bool_decide (frame = None) then Raise PulseError
    else Ok (PInt 0).

(** [GenericInstruction(instruction_type, operand, logical_element, frame, t0)] *)
Definition GenericInstruction_new (instruction_type : string)
  (operand : Operand) (logical_element : option LogicalElement)
  (frame : option Frame) (t0 : pyval) : result GenericInstruction :=
  duration ← _validate_instruction instruction_type operand
                logical_element frame;
  base ← BaseIRInstruction_init duration operand t0;
  Ok (mkGeneric instruction_type logical_element frame base).

Record AcquireInstruction : Type := mkAcquire
  { _qubit : LogicalElement;
    _memory_slot : Z;
    acquire_base : BaseIRInstruction }.

(** [AcquireInstruction(qubit, memory_slot, duration, t0)] *)
Definition AcquireInstruction_new (qubit : LogicalElement) (memory_slot : Z)
  (duration : pyval) (t0 : pyval) : result AcquireInstruction :=
  base ← BaseIRInstruction_init duration (OpVal duration) t0;
  Ok (mkAcquire qubit memory_slot base).

(** An element of a [PulseIR]: an instruction or a nested [PulseIR]. *)
Inductive Element (P : Type) : Type :=
| ElGeneric (g : GenericInstruction)
| ElAcquire (a : AcquireInstruction)
| ElBlock (p : P).

Arguments ElGeneric {P} g.
Arguments ElAcquire {P} a.
Arguments ElBlock {P} p.

Inductive PulseIR : Type := mkPulseIR
  { _alignment : option AlignmentKind;
    _elements : list (Element PulseIR) }.

(** [PulseIR.frames] *)
Fixpoint frames (p : PulseIR) : result (gset Frame) :=
  (fix loop (elements : list (Element PulseIR)) (frames_ : gset Frame)
     : result (gset Frame) :=
     match elements with
     | [] => Ok frames_
     | ElGeneric g :: rest =>
         match _frame g with
         | Some f => loop rest (frames_ ∪ {[ f ]})
         | None => loop rest frames_
         end
     | ElBlock sub :: rest =>
         sub_frames ← frames sub; loop rest (frames_ ∪ sub_frames)
     | ElAcquire _ :: rest => loop rest frames_
     end) (_elements p) ∅.

(** [PulseIR.logical_elements]: the final [else] calls
    [element.logical_elements()] on whatever is left, and an instruction has
    no such method. *)
Fixpoint logical_elements (p : PulseIR) : result (gset LogicalElement) :=
  (fix loop (elements : list (Element PulseIR))
     (logical_elements_ : gset LogicalElement)
     : result (gset LogicalElement) :=
     match elements with
     | [] => Ok logical_elements_
     | ElGeneric g :: rest =>
         match _logical_element g with
         | Some l => loop rest (logical_elements_ ∪ {[ l ]})
         | None => Raise AttributeError
         end
     | ElAcquire a :: rest => loop rest (logical_elements_ ∪ {[ _qubit a ]})
     | ElBlock sub :: rest =>
         sub_elements ← logical_elements sub;
         loop rest (logical_elements_ ∪ sub_elements)
     end) (_elements p) ∅.

(** [PulseIR.mixed_frames] *)
Fixpoint mixed_frames (p : PulseIR) : result (gset MixedFrame) :=
  (fix loop (elements : list (Element PulseIR))
     (mixed_frames_ : gset MixedFrame) : result (gset MixedFrame) :=
     match elements with
     | [] => Ok mixed_frames_
     | ElGeneric g :: rest =>
         match _logical_element g, _frame g with
         | Some l, Some f => loop rest (mixed_frames_ ∪ {[ MixedFrame_new l f ]})
         | _, _ => Raise PulseError
         end
     | ElBlock sub :: rest =>
         sub_frames ← mixed_frames sub;
         loop rest (mixed_frames_ ∪ sub_frames)
     | ElAcquire _ :: rest => loop rest mixed_frames_
     end) (_elements p) ∅.

(** The loops of the three queries, by themselves. *)
Fixpoint frames_loop (elements : list (Element PulseIR))
  (frames_ : gset Frame) : result (gset Frame) :=
  match elements with
  | [] => Ok frames_
  | ElGeneric g :: rest =>
      match _frame g with
      | Some f => frames_loop rest (frames_ ∪ {[ f ]})
      | None => frames_loop rest frames_
      end
  | ElBlock sub :: rest =>
      sub_frames ← frames sub; frames_loop rest (frames_ ∪ sub_frames)
  | ElAcquire _ :: rest => frames_loop rest frames_
  end.

Fixpoint logical_elements_loop (elements : list (Element PulseIR))
  (logical_elements_ : gset LogicalElement)
  : result (gset LogicalElement) :=
  match elements with
  | [] => Ok logical_elements_
  | ElGeneric g :: rest =>
      match _logical_element g with
      | Some l => logical_elements_loop rest (logical_elements_ ∪ {[ l ]})
      | None => Raise AttributeError
      end
  | ElAcquire a :: rest =>
      logical_elements_loop rest (logical_elements_ ∪ {[ _qubit a ]})
  | ElBlock sub :: rest =>
      sub_elements ← logical_elements sub;
      logical_elements_loop rest (logical_elements_ ∪ sub_elements)
  end.

Fixpoint mixed_frames_loop (elements : list (Element PulseIR))
  (mixed_frames_ : gset MixedFrame) : result (gset MixedFrame) :=
  match elements with
  | [] => Ok mixed_frames_
  | ElGeneric g :: rest =>
      match _logical_element g, _frame g with
      | Some l, Some f =>
          mixed_frames_loop rest (mixed_frames_ ∪ {[ MixedFrame_new l f ]})
      | _, _ => Raise PulseError
      end
  | ElBlock sub :: rest =>
      sub_frames ← mixed_frames sub;
      mixed_frames_loop rest (mixed_frames_ ∪ sub_frames)
  | ElAcquire _ :: rest => mixed_frames_loop rest mixed_frames_
  end.

(** *** What the queries are to return

    The instructions of a program, nested blocks included, in program
    order, and the values they refer to. *)
Definition Instr : Type := GenericInstruction + AcquireInstruction.

Fixpoint instructions (p : PulseIR) : list Instr :=
  (fix of_list (l : list (Element PulseIR)) : list Instr :=
     match l with
     | [] => []
     | ElGeneric g :: rest => inl g :: of_list rest
     | ElAcquire a :: rest => inr a :: of_list rest
     | ElBlock sub :: rest => instructions sub ++ of_list rest
     end) (_elements p).

Fixpoint instructions_of (elements : list (Element PulseIR)) : list Instr :=
  match elements with
  | [] => []
  | ElGeneric g :: rest => inl g :: instructions_of rest
  | ElAcquire a :: rest => inr a :: instructions_of rest
  | ElBlock sub :: rest => instructions sub ++ instructions_of rest
  end.

Definition generic_instructions (p : PulseIR) : list GenericInstruction :=
  omap (fun i : Instr => match i with inl g => Some g | inr _ => None end)
       (instructions p).

(** A generic instruction is bound to a target when it has both a logical
    element and a frame. *)
Definition is_bound (g : GenericInstruction) : bool :=
  match _logical_element g, _frame g with
  | Some _, Some _ => true
  | _, _ => false
  end.

Definition has_logical_element (g : GenericInstruction) : bool :=
  match _logical_element g with Some _ => true | None => false end.

Definition all_bound (l : list Instr) : bool :=
  forallb (fun i : Instr =>
             match i with inl g => is_bound g | inr _ => true end) l.

Definition all_have_logical_element (l : list Instr) : bool :=
  forallb (fun i : Instr =>
             match i with inl g => has_logical_element g | inr _ => true end)
          l.

Definition frame_of (i : Instr) : option Frame :=
  match i with inl g => _frame g | inr _ => None end.

Definition logical_element_of (i : Instr) : option LogicalElement :=
  match i with inl g => _logical_element g | inr a => Some (_qubit a) end.

Definition mixed_frame_of (i : Instr) : option MixedFrame :=
  match i with
  | inl g =>
      l ← _logical_element g; f ← _frame g; Some (MixedFrame_new l f)
  | inr _ => None
  end.

Definition referenced_frames (p : PulseIR) : gset Frame :=
  list_to_set (omap frame_of (instructions p)).

Definition referenced_logical_elements (p : PulseIR) : gset LogicalElement :=
  list_to_set (omap logical_element_of (instructions p)).

Definition referenced_mixed_frames (p : PulseIR) : gset MixedFrame :=
  list_to_set (omap mixed_frame_of (instructions p)).

(** *** The rest of the container *)

(** [BaseIRInstruction.final_time]: [self._t0 + self._duration]; adding to
    [None] or to a string raises [TypeError]. *)
Definition final_time (i : BaseIRInstruction) : result pyval :=
  match _t0 i, _duration i with
  | PInt t, PInt d => Ok (PInt (t + d))
  | PInt t, PFloat d => Ok (PFloat (Q2Qc (inject_Z t) + d)%Qc)
  | PFloat t, PInt d => Ok (PFloat (t + Q2Qc (inject_Z d))%Qc)
  | PFloat t, PFloat d => Ok (PFloat (t + d)%Qc)
  | _, _ => Raise TypeError
  end.

(** The base part of an instruction of either class. *)
Definition base_of (i : Instr) : BaseIRInstruction :=
  match i with inl g => generic_base g | inr a => acquire_base a end.

Definition element_of (i : Instr) : Element PulseIR :=
  match i with inl g => ElGeneric g | inr a => ElAcquire a end.

(** [PulseIR(alignment)] *)
Definition PulseIR_new (alignment : option AlignmentKind) : PulseIR :=
  mkPulseIR alignment [].

(** [add_element]: a list is spliced in, anything else is added as one
    element. *)
Definition add_element (p : PulseIR)
  (element : Element PulseIR + list (Element PulseIR)) : PulseIR :=
  mkPulseIR (_alignment p)
    (_elements p ++ match element with inl e => [e] | inr l => l end).

(** [PulseIR.flatten] *)
Fixpoint flatten (p : PulseIR) : result PulseIR :=
  (fix loop (elements : list (Element PulseIR)) (flat_ir : PulseIR)
     : result PulseIR :=
     match elements with
     | [] => Ok flat_ir
     | ElGeneric g :: rest =>
         if is_None (_t0 (generic_base g)) then Raise PulseError
         else loop rest (add_element flat_ir (inl (ElGeneric g)))
     | ElAcquire a :: rest =>
         if is_None (_t0 (acquire_base a)) then Raise PulseError
         else loop rest (add_element flat_ir (inl (ElAcquire a)))
     | ElBlock sub :: rest =>
         flat_sub ← flatten sub;
         loop rest (add_element flat_ir (inr (_elements flat_sub)))
     end) (_elements p) (PulseIR_new None).

Fixpoint flatten_loop (elements : list (Element PulseIR)) (flat_ir : PulseIR)
  : result PulseIR :=
  match elements with
  | [] => Ok flat_ir
  | ElGeneric g :: rest =>
      if is_None (_t0 (generic_base g)) then Raise PulseError
      else flatten_loop rest (add_element flat_ir (inl (ElGeneric g)))
  | ElAcquire a :: rest =>
      if is_None (_t0 (acquire_base a)) then Raise PulseError
      else flatten_loop rest (add_element flat_ir (inl (ElAcquire a)))
  | ElBlock sub :: rest =>
      flat_sub ← flatten sub;
      flatten_loop rest (add_element flat_ir (inr (_elements flat_sub)))
  end.

(** [mixed_frame == MixedFrame(element.logical_element, element.frame)]: a
    missing logical element or frame compares unequal to any. *)
Definition addresses (mixed_frame : MixedFrame) (g : GenericInstruction)
  : bool :=
  match _logical_element g, _frame g with
  | Some l, Some f => MixedFrame_eq mixed_frame (MixedFrame_new l f)
  | _, _ => false
  end.

(** [PulseIR.get_instructions_by_mixed_frame] *)
Fixpoint get_instructions_by_mixed_frame (p : PulseIR)
  (mixed_frame : MixedFrame) : list GenericInstruction :=
  (fix loop (elements : list (Element PulseIR)) : list GenericInstruction :=
     match elements with
     | [] => []
     | ElGeneric g :: rest =>
         if addresses mixed_frame g then g :: loop rest else loop rest
     | ElBlock sub :: rest =>
         get_instructions_by_mixed_frame sub mixed_frame ++ loop rest
     | ElAcquire _ :: rest => loop rest
     end) (_elements p).

(** [qubit is None or element.qubit == qubit] *)
Definition acquires_on (qubit : option LogicalElement)
  (a : AcquireInstruction) : bool :=
  match qubit with
  | None => true
  | Some q => LogicalElement_eq (_qubit a) q
  end.

(** [PulseIR.get_acquire_instructions] *)
Fixpoint get_acquire_instructions (p : PulseIR)
  (qubit : option LogicalElement) : list AcquireInstruction :=
  (fix loop (elements : list (Element PulseIR)) : list AcquireInstruction :=
     match elements with
     | [] => []
     | ElAcquire a :: rest =>
         if acquires_on qubit a then a :: loop rest else loop rest
     | ElBlock sub :: rest =>
         get_acquire_instructions sub qubit ++ loop rest
     | ElGeneric _ :: rest => loop rest
     end) (_elements p).



(** Every instruction of the list has a start time. *)
Definition all_timed (l : list Instr) : bool :=
  forallb (fun i : Instr => negb (is_None (_t0 (base_of i)))) l.

Definition acquire_instructions (p : PulseIR) : list AcquireInstruction :=
  omap (fun i : Instr => match i with inr a => Some a | inl _ => None end)
       (instructions p).

(** The loops of the two searches, by themselves. *)
Section Searches.

Variable mixed_frame : MixedFrame.
Variable qubit : option LogicalElement.

Fixpoint by_mixed_frame_loop (elements : list (Element PulseIR))
  : list GenericInstruction :=
  match elements with
  | [] => []
  | ElGeneric g :: rest =>
      if addresses mixed_frame g then g :: by_mixed_frame_loop rest
      else by_mixed_frame_loop rest
  | ElBlock sub :: rest =>
      get_instructions_by_mixed_frame sub mixed_frame
      ++ by_mixed_frame_loop rest
  | ElAcquire _ :: rest => by_mixed_frame_loop rest
  end.

Fixpoint acquire_loop (elements : list (Element PulseIR))
  : list AcquireInstruction :=
  match elements with
  | [] => []
  | ElAcquire a :: rest =>
      if acquires_on qubit a then a :: acquire_loop rest
      else acquire_loop rest
  | ElBlock sub :: rest =>
      get_acquire_instructions sub qubit ++ acquire_loop rest
  | ElGeneric _ :: rest => acquire_loop rest
  end.

End Searches.

(** The loop of [shift_program], by itself, and what a shift by [value]
    asks of an instruction and makes of it. *)
Section Shifting.

Variable value : Z.




End Shifting.

(** Induction on programs: a property holds of every program once it holds
    of a program whenever it holds of its nested blocks. *)
Definition holds_of_blocks (P : PulseIR -> Prop) (e : Element PulseIR) : Prop :=
  match e with ElBlock sub => P sub | _ => True end.

Fixpoint PulseIR_nested_ind (P : PulseIR -> Prop)
  (step : forall al els, Forall (holds_of_blocks P) els -> P (mkPulseIR al els))
  (p : PulseIR) {struct p} : P p :=
  match p with
  | mkPulseIR al els =>
      step al els
        ((fix all (l : list (Element PulseIR)) : Forall (holds_of_blocks P) l :=
            match l with
            | [] => List.Forall_nil _
            | e :: r =>
                @List.Forall_cons _ _ e r
                  (match e return holds_of_blocks P e with
                   | ElBlock sub => PulseIR_nested_ind P step sub
                   | _ => I
                   end) (all r)
            end) els)
  end.

End LegacyIR.

(** ** The graph container: rustworkx's [PyDAG(multigraph=False)]

    The library is not part of the repository; this is the behaviour of the
    calls made by [ir.py] and [consolidate_sequences.py].  Nodes live in
    numbered slots; removing a node vacates its slot, and a vacant slot is
    reused, most recently vacated first, before a new one is opened.  Edges
    carry no data here and are kept in the order they were added; the
    neighbours of a node are reported most recent edge first. *)

Module Dag.

Record PyDAG (A : Type) : Type := mkDAG
  { slots : list (option A);
    free : list nat;
    edges : list (nat * nat) }.

Arguments mkDAG {A} slots free edges.
Arguments slots {A} p.
Arguments free {A} p.
Arguments edges {A} p.

(** A node-index mapping returned by a substitution, in insertion order. *)
Definition NodeMap : Type := list (nat * nat).

Section Ops.

Context {A : Type}.

Definition has_node (g : PyDAG A) (ind : nat) : bool :=
  match slots g !! ind with
  | Some (Some _) => true
  | _ => false
  end.

(** [g.node_indices()]: the occupied slots, ascending. *)
Fixpoint occupied_from (l : list (option A)) (ind : nat) : list nat :=
  match l with
  | [] => []
  | Some _ :: rest => ind :: occupied_from rest (S ind)
  | None :: rest => occupied_from rest (S ind)
  end.

Definition node_indices (g : PyDAG A) : list nat :=
  occupied_from (slots g) 0%nat.

(** [g.nodes()]: the payloads, in index order. *)
Definition nodes (g : PyDAG A) : list A := omap id (slots g).

(** [g.get_node_data(ind)] and [g[ind]] *)
Definition get_node_data (g : PyDAG A) (ind : nat) : result A :=
  match slots g !! ind with
  | Some (Some x) => Ok x
  | _ => Raise IndexError
  end.

(** [g[ind] = x] *)
Definition set_node_data (g : PyDAG A) (ind : nat) (x : A)
  : result (PyDAG A) :=
  if has_node g ind
  then Ok (mkDAG (<[ind := Some x]> (slots g)) (free g) (edges g))
  else Raise IndexError.

(** [g.add_node(x)] *)
Definition add_node (g : PyDAG A) (x : A) : PyDAG A * nat :=
  match free g with
  | ind :: rest => (mkDAG (<[ind := Some x]> (slots g)) rest (edges g), ind)
  | [] => (mkDAG (slots g ++ [Some x]) [] (edges g), length (slots g))
  end.

(** [g.add_nodes_from(xs)] *)
Definition add_nodes_from (g : PyDAG A) (xs : list A) : PyDAG A :=
  foldl (fun g x => fst (add_node g x)) g xs.

Definition has_edge (g : PyDAG A) (e : nat * nat) : bool :=
  bool_decide (e ∈ edges g).

(** [g.add_edge(source, target, _)]: without parallel edges, adding an
    existing edge only replaces its data. *)
Definition add_edge (g : PyDAG A) (e : nat * nat) : PyDAG A :=
  if has_edge g e then g
  else mkDAG (slots g) (free g) (edges g ++ [e]).

Definition add_edges (g : PyDAG A) (es : list (nat * nat)) : PyDAG A :=
  foldl add_edge g es.

(** [g.predecessor_indices(ind)] and [g.successor_indices(ind)] *)
Definition predecessor_indices (g : PyDAG A) (ind : nat) : list nat :=
  reverse (fst <$> filter (fun e => snd e = ind) (edges g)).

Definition successor_indices (g : PyDAG A) (ind : nat) : list nat :=
  reverse (snd <$> filter (fun e => fst e = ind) (edges g)).

(** [g.remove_node(ind)]: the node goes with all its edges; nothing happens
    when there is no such node. *)
Definition remove_node (g : PyDAG A) (ind : nat) : PyDAG A :=
  if has_node g ind
  then mkDAG (<[ind := None]> (slots g)) (ind :: free g)
             (filter (fun e => fst e ≠ ind ∧ snd e ≠ ind) (edges g))
  else g.

(** [g.remove_node_retain_edges(ind)]: every predecessor is first linked to
    every successor. *)
Definition remove_node_retain_edges (g : PyDAG A) (ind : nat) : PyDAG A :=
  let bridges :=
    s ← predecessor_indices g ind;
    t ← successor_indices g ind;
    [(s, t)] in
  remove_node (add_edges g bridges) ind.

Definition node_map_get (m : NodeMap) (old : nat) : result nat :=
  match list_find (fun p => fst p = old) m with
  | Some (_, (_, new)) => Ok new
  | None => Raise IndexError
  end.

(** Copying the nodes of [other] into [g], recording where each one went. *)
Fixpoint copy_nodes (g : PyDAG A) (other : list (option A)) (ind : nat)
  (out_map : NodeMap) : PyDAG A * NodeMap :=
  match other with
  | [] => (g, out_map)
  | Some x :: rest =>
      let '(g', new) := add_node g x in
      copy_nodes g' rest (S ind) (out_map ++ [(ind, new)])
  | None :: rest => copy_nodes g rest (S ind) out_map
  end.

(** Re-attaching the edges that entered or left the replaced node.
    [pick e] is the node of [other] the edge [e] is sent to, if any, and
    [mk new e] the edge to add. *)
Fixpoint reattach (g : PyDAG A) (out_map : NodeMap)
  (pick : nat * nat -> option nat) (mk : nat -> nat * nat -> nat * nat)
  (es : list (nat * nat)) : result (PyDAG A) :=
  match es with
  | [] => Ok g
  | e :: rest =>
      match pick e with
      | Some old =>
          new ← node_map_get out_map old;
          reattach (add_edge g (mk new e)) out_map pick mk rest
      | None => reattach g out_map pick mk rest
      end
  end.

(** [g.substitute_node_with_subgraph(node, other, edge_map_fn)] *)
Definition substitute_node_with_subgraph (g : PyDAG A) (node : nat)
  (other : PyDAG A) (edge_map_fn : nat -> nat -> option nat)
  : result (PyDAG A * NodeMap) :=
  if negb (has_node g node) then Raise IndexError
  else
    let '(g1, out_map) := copy_nodes g (slots other) 0%nat [] in
    match out_map with
    | [] => Ok (remove_node g node, [])
    | _ =>
        let copied :=
          omap (fun e =>
                  match node_map_get out_map (fst e),
                        node_map_get out_map (snd e) with
                  | Ok s, Ok t => Some (s, t)
                  | _, _ => None
                  end) (edges other) in
        let g2 := add_edges g1 copied in
        let in_edges :=
          reverse (filter (fun e => snd e = node) (edges g2)) in
        let out_edges :=
          filter (fun e => e ∉ in_edges)
                 (reverse (filter (fun e => fst e = node) (edges g2))) in
        g3 ← reattach g2 out_map
               (fun e => edge_map_fn (fst e) (snd e))
               (fun new e => (fst e, new)) in_edges;
        g4 ← reattach g3 out_map
               (fun e => edge_map_fn (fst e) (snd e))
               (fun new e => (new, snd e)) out_edges;
        Ok (remove_node g4 node, out_map)
    end.

(** The state the calls above keep a graph in: the vacant slots are the
    ones on the free list, each once, and every edge joins two nodes. *)
Definition well_formed (g : PyDAG A) : Prop :=
  NoDup (free g)
  /\ (forall ind, ind ∈ free g <-> slots g !! ind = Some None)
  /\ (forall e, e ∈ edges g ->
        has_node g (fst e) = true /\ has_node g (snd e) = true).

End Ops.

End Dag.

(** ** The program graph: qiskit/pulse/ir/ir.py *)

Module IR.

Import Dag.

(** A leaf instruction ([qiskit.pulse.Instruction], defined outside the
    files embedded here): what is read of it is its [duration]; [name]
    stands for the rest of its content in comparisons. *)
Record Instruction : Type := mkInstruction
  { name : string;
    inst_duration : Z }.

(** What a node of the graph holds: one of the two sentinel objects
    [_InNode] and [_OutNode], an instruction, or a nested program. *)
Inductive Payload (S : Type) : Type :=
| InNode
| OutNode
| Leaf (i : Instruction)
| Nested (s : S).

Arguments InNode {S}.
Arguments OutNode {S}.
Arguments Leaf {S} i.
Arguments Nested {S} s.

(** [_time_table] is a [defaultdict(lambda: None)]: indexing it never fails
    and yields [None] for a node without a time.  It is the map from node
    indices to the times that are set; a key holding [None] and a missing
    key are the same entry. *)
Inductive SequenceIR : Type := mkSequenceIR
  { alignment : AlignmentKind;
    _time_table : gmap nat Z;
    _sequence : PyDAG (Payload SequenceIR) }.

Abbreviation Node := (Payload SequenceIR).

(** [isinstance(node, SequenceIR)] *)
Definition is_SequenceIR (node : Node) : bool :=
  match node with Nested _ => true | _ => false end.

(** [ind in (0, 1)] *)
Definition is_sentinel_index (ind : nat) : bool :=
  bool_decide (ind = 0%nat) || bool_decide (ind = 1%nat).

(** [SequenceIR(alignment)] *)
Definition SequenceIR_new (alignment : AlignmentKind) : SequenceIR :=
  mkSequenceIR alignment ∅
    (add_nodes_from (mkDAG [] [] []) [InNode; OutNode]).

(** [append] *)
Definition append (s : SequenceIR) (element : Node) : SequenceIR * nat :=
  let '(g, ind) := add_node (_sequence s) element in
  (mkSequenceIR (alignment s) (_time_table s) g, ind).

(** [elements]: [self._sequence.nodes()[2:]] *)
Definition elements (s : SequenceIR) : list Node :=
  drop 2 (nodes (_sequence s)).

(** [list.sort(key=...)] on the times: stable. *)
Fixpoint insert_by_time {B : Type} (x : Z * B) (l : list (Z * B))
  : list (Z * B) :=
  match l with
  | [] => [x]
  | y :: rest =>
      if fst x <? fst y then x :: y :: rest
      else y :: insert_by_time x rest
  end.

Definition sort_by_time {B : Type} (l : list (Z * B)) : list (Z * B) :=
  foldl (fun acc x => insert_by_time x acc) [] l.

(** The last two lines of [scheduled_elements]: sort when every time is
    set, leave the list alone otherwise. *)
Definition sort_if_scheduled {B : Type} (l : list (option Z * B))
  : list (option Z * B) :=
  match mapM (fun x => t ← fst x; Some (t, snd x)) l with
  | Some timed => (fun x => (Some (fst x), snd x)) <$> sort_by_time timed
  | None => l
  end.

(** [_recursive_scheduled_elements]: the loop visits the occupied slots in
    index order. *)
Fixpoint _recursive_scheduled_elements (s : SequenceIR) (time_offset : Z)
  : result (list (option Z * Node)) :=
  (fix loop (l : list (option Node)) (ind : nat)
     : result (list (option Z * Node)) :=
     match l with
     | [] => Ok []
     | None :: rest => loop rest (S ind)
     | Some node :: rest =>
         if is_sentinel_index ind then loop rest (S ind)
         else
           match _time_table s !! ind with
           | None => Raise PulseError
           | Some t =>
               let time := t + time_offset in
               here ← match node with
                      | Nested sub => _recursive_scheduled_elements sub time
                      | _ => Ok [(Some time, node)]
                      end;
               more ← loop rest (S ind);
               Ok (here ++ more)
           end
     end) (slots (_sequence s)) 0%nat.

(** [scheduled_elements] *)
Definition scheduled_elements (s : SequenceIR) (recursive : bool)
  : result (list (option Z * Node)) :=
  listed_elements ←
    (if recursive then _recursive_scheduled_elements s 0
     else
       mapM (fun ind =>
               node ← get_node_data (_sequence s) ind;
               Ok (_time_table s !! ind, node))
            (filter (fun ind => is_sentinel_index ind = false)
                    (node_indices (_sequence s))));
  Ok (sort_if_scheduled listed_elements).

(** One term of the maximum in [duration]:
    [self._time_table[ind] + node.duration], where [d] is the outcome of
    reading [node.duration]. *)
Definition end_time (t : option Z) (d : result (option Z)) : result Z :=
  d' ← d;
  match t, d' with
  | Some t, Some d => Ok (t + d)
  | _, _ => Raise TypeError
  end.

(** [max(...)] over a generator: the terms are produced in order and the
    first exception ends the evaluation. *)
Fixpoint max_of (terms : list (result Z)) (acc : option Z) : result (option Z) :=
  match terms with
  | [] => Ok acc
  | t :: rest =>
      v ← t;
      max_of rest (Some (match acc with None => v | Some a => Z.max a v end))
  end.

(** The [duration] property.  [durations] holds, slot by slot, the outcome
    of reading [.duration] on the payload: the sentinels are plain objects
    without that attribute. *)
Fixpoint duration (s : SequenceIR) : result (option Z) :=
  let durations : list (option (result (option Z))) :=
    (fun o : option Node =>
       node ← o;
       Some match node with
            | InNode | OutNode => Raise AttributeError
            | Leaf i => Ok (Some (inst_duration i))
            | Nested sub => duration sub
            end) <$> slots (_sequence s) in
  let last_nodes := predecessor_indices (_sequence s) 1 in
  match last_nodes with
  | [] => Ok None
  | _ =>
      match
        max_of ((fun ind =>
                   end_time (_time_table s !! ind)
                     (match durations !! ind with
                      | Some (Some d) => d
                      | _ => Raise IndexError
                      end)) <$> last_nodes) None
      with
      | Raise TypeError => Ok None
      | r => r
      end
  end.

(** The pairs that [scheduled_elements] lists without recursion, before
    the sort: one for each node other than the sentinels, in index order. *)
Definition plain_listing (s : SequenceIR) : list (option Z * Node) :=
  omap (fun ind =>
          match get_node_data (_sequence s) ind with
          | Ok node => Some (_time_table s !! ind, node)
          | Raise _ => None
          end)
       (filter (fun ind => is_sentinel_index ind = false)
               (node_indices (_sequence s))).

(** The same pairs, read off the slots. *)
Fixpoint listing_from (table : gmap nat Z) (l : list (option Node))
  (ind : nat) : list (option Z * Node) :=
  match l with
  | [] => []
  | None :: rest => listing_from table rest (S ind)
  | Some node :: rest =>
      if is_sentinel_index ind then listing_from table rest (S ind)
      else (table !! ind, node) :: listing_from table rest (S ind)
  end.

(** Moving every time of a listing by [offset]. *)
Definition shift_times (offset : Z) (l : list (option Z * Node))
  : list (option Z * Node) :=
  (fun x : option Z * Node =>
     (match fst x with Some t => Some (t + offset) | None => None end,
      snd x)) <$> l.

(** No node of the program holds a nested program. *)
Definition is_flat (s : SequenceIR) : bool :=
  forallb (fun o : option Node =>
             match o with Some (Nested _) => false | _ => true end)
          (slots (_sequence s)).

(** Reading [.duration] on the payload of a node, and the end time of a node
    whose time and duration are both set. *)
Definition payload_duration (s : SequenceIR) (ind : nat)
  : result (option Z) :=
  match slots (_sequence s) !! ind with
  | Some (Some InNode) | Some (Some OutNode) => Raise AttributeError
  | Some (Some (Leaf i)) => Ok (Some (inst_duration i))
  | Some (Some (Nested sub)) => duration sub
  | _ => Raise IndexError
  end.

Definition resolved_end (s : SequenceIR) (ind : nat) : option Z :=
  t ← _time_table s !! ind;
  d ← match payload_duration s ind with Ok d => d | Raise _ => None end;
  Some (t + d).

Definition larger (acc : option Z) (v : Z) : option Z :=
  Some (match acc with None => v | Some a => Z.max a v end).

(** The loop of [_recursive_scheduled_elements], by itself. *)
Section RecursiveLoop.

Variable table : gmap nat Z.
Variable time_offset : Z.

Fixpoint recursive_loop (l : list (option Node)) (ind : nat)
  : result (list (option Z * Node)) :=
  match l with
  | [] => Ok []
  | None :: rest => recursive_loop rest (S ind)
  | Some node :: rest =>
      if is_sentinel_index ind then recursive_loop rest (S ind)
      else
        match table !! ind with
        | None => Raise PulseError
        | Some t =>
            let time := t + time_offset in
            here ← match node with
                   | Nested sub => _recursive_scheduled_elements sub time
                   | _ => Ok [(Some time, node)]
                   end;
            more ← recursive_loop rest (S ind);
            Ok (here ++ more)
        end
  end.

End RecursiveLoop.

(** Some element of the program, at some nesting depth, has no time in the
    time table of the program that holds it. *)
Inductive has_unset_time : SequenceIR -> Prop :=
| unset_here (s : SequenceIR) (ind : nat) (node : Node) :
    slots (_sequence s) !! ind = Some (Some node) ->
    is_sentinel_index ind = false ->
    _time_table s !! ind = None ->
    has_unset_time s
| unset_below (s : SequenceIR) (ind : nat) (sub : SequenceIR) :
    slots (_sequence s) !! ind = Some (Some (Nested sub)) ->
    is_sentinel_index ind = false ->
    has_unset_time sub ->
    has_unset_time s.

(** A recursive listing either raises [PulseError] or pairs every element
    with a time. *)
Definition timed_or_PulseError (r : result (list (option Z * Node))) : Prop :=
  match r with
  | Ok l => Forall (fun x => is_Some (fst x)) l
  | Raise e => e = PulseError
  end.

(** Induction on programs: a property holds of every program once it holds
    of a program whenever it holds of the programs nested in it. *)
Definition holds_of_nested (P : SequenceIR -> Prop) (o : option Node) : Prop :=
  match o with Some (Nested sub) => P sub | _ => True end.

Fixpoint SequenceIR_nested_ind (P : SequenceIR -> Prop)
  (step : forall al table g,
      Forall (holds_of_nested P) (slots g) -> P (mkSequenceIR al table g))
  (s : SequenceIR) {struct s} : P s :=
  match s with
  | mkSequenceIR al table g =>
      step al table g
        ((fix all (l : list (option Node)) : Forall (holds_of_nested P) l :=
            match l with
            | [] => List.Forall_nil _
            | o :: r =>
                @List.Forall_cons _ _ o r
                  (match o return holds_of_nested P o with
                   | Some (Nested sub) => SequenceIR_nested_ind P step sub
                   | _ => I
                   end) (all r)
            end) (slots g))
  end.

(** [SequenceIR.__eq__]: equal alignments, and
    [rx.is_isomorphic_node_match] on the two graphs with [x == y] on the
    payloads.  The graphs match when they have as many nodes and as many
    edges and some one-to-one renaming of the nodes carries edges to edges
    and payloads to equal payloads; [renaming] lists, for the nodes of the
    first graph in index order, their images.  Two sentinels are equal when
    they are the same object, two instructions when their contents agree,
    two nested programs by this same comparison; no other pair of payloads
    compares equal. *)
Fixpoint SequenceIR_eqb (self other : SequenceIR) {struct self} : bool :=
  let image (renaming : list nat) (ind : nat) : option nat :=
    snd <$> (snd <$> list_find (fun p => fst p = ind)
                       (zip (node_indices (_sequence self)) renaming)) in
  bool_decide (alignment other = alignment self)
  && bool_decide (length (node_indices (_sequence self))
                  = length (node_indices (_sequence other)))
  && bool_decide (length (edges (_sequence self))
                  = length (edges (_sequence other)))
  && existsb
       (fun renaming : list nat =>
          forallb (fun e : nat * nat =>
                     match image renaming (fst e), image renaming (snd e) with
                     | Some s, Some t => has_edge (_sequence other) (s, t)
                     | _, _ => false
                     end) (edges (_sequence self))
          && (fix match_nodes (l : list (option Node)) (ind : nat) : bool :=
                match l with
                | [] => true
                | None :: rest => match_nodes rest (S ind)
                | Some x :: rest =>
                    match image renaming ind with
                    | Some ind' =>
                        match x, get_node_data (_sequence other) ind' with
                        | InNode, Ok InNode => true
                        | OutNode, Ok OutNode => true
                        | Leaf i, Ok (Leaf j) =>
                            String.eqb (name i) (name j)
                            && (inst_duration i =? inst_duration j)
                        | Nested sub, Ok (Nested sub') =>
                            SequenceIR_eqb sub sub'
                        | _, _ => false
                        end
                    | None => false
                    end
                    && match_nodes rest (S ind)
                end) (slots (_sequence self)) 0%nat)
       (permutations (node_indices (_sequence other))).

End IR.

(** ** The pass: qiskit/pulse/compiler/passes/consolidate_sequences.py *)

Module Consolidate.

Import Dag IR.

(** Modelled from the spec: the [time_table] attribute that the pass reads
    and writes is not defined by the [SequenceIR] of ir.py; it is the time
    table of the program, "node -> optional absolute offset", that is the
    [_time_table] field. *)
Definition time_table (prog : SequenceIR) : gmap nat Z := _time_table prog.

Definition with_sequence (prog : SequenceIR) (g : PyDAG Node) : SequenceIR :=
  mkSequenceIR (alignment prog) (_time_table prog) g.

Definition with_time_table (prog : SequenceIR) (table : gmap nat Z)
  : SequenceIR :=
  mkSequenceIR (alignment prog) table (_sequence prog).

(** How a call ended.  The pass updates the program it is given, so the
    program is there in each case.  [OutOfFuel] belongs to the embedding:
    the recursion into nested programs is bounded by a counter. *)
Inductive status : Type :=
| Returned
| Raised (e : exn)
| OutOfFuel.

(** The test that opens [_consolidate_recursion]. *)
Definition already_scheduled (prog : SequenceIR) : bool :=
  existsb (fun x => negb (is_sentinel_index x)
                    && bool_decide (time_table prog !! x ≠ None))
          (node_indices (_sequence prog)).

(** The local function [edge_map], as called: [edge_map(x, y, ind)]. *)
Definition edge_map (ind x y : nat) : option nat :=
  if bool_decide (y = ind) then Some 0%nat
  else if bool_decide (x = ind) then Some 1%nat
  else None.

(** The loop over [nodes_mapping.keys()] that moves the times of the
    spliced nodes: [initial_time + sub_prog.time_table[old_node]]. *)
Fixpoint shift_spliced_times (table : gmap nat Z) (sub_table : gmap nat Z)
  (initial_time : Z) (nodes_mapping : NodeMap) : gmap nat Z * status :=
  match nodes_mapping with
  | [] => (table, Returned)
  | (old_node, new_node) :: rest =>
      if is_sentinel_index old_node
      then shift_spliced_times table sub_table initial_time rest
      else
        match sub_table !! old_node with
        | Some t =>
            shift_spliced_times (<[new_node := initial_time + t]> table)
              sub_table initial_time rest
        | None => (table, Raised TypeError)
        end
  end.

(** The second branch of the loop body: the nested program replaces its
    node. *)
Definition inline_sub_prog (prog : SequenceIR) (ind : nat)
  (sub_prog : SequenceIR) : SequenceIR * status :=
  match substitute_node_with_subgraph (_sequence prog) ind
          (_sequence sub_prog) (edge_map ind) with
  | Raise e => (prog, Raised e)
  | Ok (g, nodes_mapping) =>
      let prog1 := with_sequence prog g in
      let '(table, st) :=
        match time_table prog1 !! ind with
        | Some initial_time =>
            let '(table, st) :=
              shift_spliced_times (time_table prog1) (time_table sub_prog)
                initial_time nodes_mapping in
            match st with
            | Returned => (delete ind table, Returned)
            | _ => (table, st)
            end
        | None => (time_table prog1, Returned)
        end in
      let prog2 := with_time_table prog1 table in
      match st with
      | Returned =>
          match node_map_get nodes_mapping 0 with
          | Raise e => (prog2, Raised e)
          | Ok new_in =>
              let g1 := remove_node_retain_edges (_sequence prog2) new_in in
              match node_map_get nodes_mapping 1 with
              | Raise e => (with_sequence prog2 g1, Raised e)
              | Ok new_out =>
                  (with_sequence prog2 (remove_node_retain_edges g1 new_out),
                   Returned)
              end
          end
      | _ => (prog2, st)
      end
  end.

(** The first branch: the only element of the nested program takes the
    place of the nested program. *)
Definition replace_by_single (prog : SequenceIR) (ind : nat)
  (sub_prog : SequenceIR) : SequenceIR * status :=
  match elements sub_prog with
  | element :: _ =>
      match set_node_data (_sequence prog) ind element with
      | Ok g => (with_sequence prog g, Returned)
      | Raise e => (prog, Raised e)
      end
  | [] => (prog, Raised IndexError)
  end.

Section Body.

(** The recursive call of the pass on a nested program. *)
Variable recurse : SequenceIR -> SequenceIR * status.

(** One iteration of the [for] loop.  The nested program is an object
    shared with its node: what the recursive call does to it is seen
    through the node. *)
Definition consolidate_node (prog : SequenceIR) (ind : nat)
  : SequenceIR * status :=
  if is_sentinel_index ind then (prog, Returned)
  else
    match get_node_data (_sequence prog) ind with
    | Raise e => (prog, Raised e)
    | Ok (Nested sub_prog) =>
        if bool_decide (length (elements sub_prog) = 0%nat) then
          (with_sequence prog
             (remove_node_retain_edges (_sequence prog) ind), Returned)
        else
          let '(sub_prog', st) := recurse sub_prog in
          let prog' :=
            match set_node_data (_sequence prog) ind (Nested sub_prog') with
            | Ok g => with_sequence prog g
            | Raise _ => prog
            end in
          match st with
          | Returned =>
              if is_single_instruction_unnecessary (alignment sub_prog')
                 && bool_decide (length (elements sub_prog') = 1%nat)
              then replace_by_single prog' ind sub_prog'
              else if is_AlignSequential (alignment sub_prog')
                      && is_AlignSequential (alignment prog')
              then inline_sub_prog prog' ind sub_prog'
              else (prog', Returned)
          | _ => (prog', st)
          end
    | Ok _ => (prog, Returned)
    end.

(** The [for] loop, over the node indices taken when it starts. *)
Fixpoint consolidate_loop (prog : SequenceIR) (inds : list nat)
  : SequenceIR * status :=
  match inds with
  | [] => (prog, Returned)
  | ind :: rest =>
      let '(prog', st) := consolidate_node prog ind in
      match st with
      | Returned => consolidate_loop prog' rest
      | _ => (prog', st)
      end
  end.

End Body.

(** [ConsolidateSequences._consolidate_recursion] *)
Fixpoint _consolidate_recursion (fuel : nat) (prog : SequenceIR)
  : SequenceIR * status :=
  match fuel with
  | O => (prog, OutOfFuel)
  | S fuel' =>
      if already_scheduled prog then (prog, Raised PulseCompilerError)
      else consolidate_loop (_consolidate_recursion fuel') prog
             (node_indices (_sequence prog))
  end.

(** How deep programs are nested in a program. *)
Fixpoint nesting_depth (prog : SequenceIR) : nat :=
  S (max_list ((fun o : option Node =>
                  match o with
                  | Some (Nested sub) => nesting_depth sub
                  | _ => 0%nat
                  end) <$> slots (_sequence prog))).

(** The nesting depth of what a slot holds, and a bound on it for all the
    slots of a graph. *)
Definition node_depth (o : option Node) : nat :=
  match o with
  | Some (Nested sub) => nesting_depth sub
  | _ => 0%nat
  end.

Definition depth_le (d : nat) (g : PyDAG Node) : Prop :=
  Forall (fun o => (node_depth o <= d)%nat) (slots g).

(** [ConsolidateSequences.run]: the program after the call, and how the
    call ended.  The counter is set to the nesting depth of the program,
    which is as deep as the recursion goes. *)
Definition run (passmanager_ir : SequenceIR) : SequenceIR * status :=
  _consolidate_recursion (nesting_depth passmanager_ir) passmanager_ir.

End Consolidate.

(** ** Flattening a program graph: [SequenceIR.flatten] of ir.py *)

Module Flatten.

Import Dag IR Consolidate.

(** The local function [edge_map], as called: [edge_map(x, y, ind)]. *)
Definition edge_map (ind x y : nat) : option nat :=
  if bool_decide (y = ind) then Some 0%nat
  else if bool_decide (x = ind) then Some 1%nat
  else None.

(** The body of the [if isinstance(...)] once the nested block is
    flattened: the block's graph takes the place of its node, the times of
    its nodes are moved by the time of the node when there is one, the
    entry of the node is deleted, and the two copied sentinels go. *)
Definition splice_flattened (block : SequenceIR) (ind : nat)
  (sub_block : SequenceIR) : SequenceIR * status :=
  let initial_time := _time_table block !! ind in
  match substitute_node_with_subgraph (_sequence block) ind
          (_sequence sub_block) (edge_map ind) with
  | Raise e => (block, Raised e)
  | Ok (g, nodes_mapping) =>
      let block1 := with_sequence block g in
      let '(table, st) :=
        match initial_time with
        | Some t => shift_spliced_times (_time_table block1)
                      (_time_table sub_block) t nodes_mapping
        | None => (_time_table block1, Returned)
        end in
      match st with
      | Returned =>
          let block2 := with_time_table block1 (delete ind table) in
          match node_map_get nodes_mapping 0 with
          | Raise e => (block2, Raised e)
          | Ok new_in =>
              let g1 := remove_node_retain_edges (_sequence block2) new_in in
              match node_map_get nodes_mapping 1 with
              | Raise e => (with_sequence block2 g1, Raised e)
              | Ok new_out =>
                  (with_sequence block2 (remove_node_retain_edges g1 new_out),
                   Returned)
              end
          end
      | _ => (with_time_table block1 table, st)
      end
  end.

Section Body.

(** [sub_block.flatten(inplace=True)] *)
Variable recurse : SequenceIR -> SequenceIR * status.

(** One iteration of the [for] loop; the sentinels are looked at like any
    other node. *)
Definition flatten_node (block : SequenceIR) (ind : nat)
  : SequenceIR * status :=
  match get_node_data (_sequence block) ind with
  | Raise e => (block, Raised e)
  | Ok (Nested sub_block) =>
      let '(sub_block', st) := recurse sub_block in
      let block' :=
        match set_node_data (_sequence block) ind (Nested sub_block') with
        | Ok g => with_sequence block g
        | Raise _ => block
        end in
      match st with
      | Returned => splice_flattened block' ind sub_block'
      | _ => (block', st)
      end
  | Ok _ => (block, Returned)
  end.

Fixpoint flatten_loop (block : SequenceIR) (inds : list nat)
  : SequenceIR * status :=
  match inds with
  | [] => (block, Returned)
  | ind :: rest =>
      let '(block', st) := flatten_node block ind in
      match st with
      | Returned => flatten_loop block' rest
      | _ => (block', st)
      end
  end.

End Body.

(** [flatten(inplace=True)]: the block after the call, and how the call
    ended. *)
Fixpoint flatten_inplace (fuel : nat) (block : SequenceIR)
  : SequenceIR * status :=
  match fuel with
  | O => (block, OutOfFuel)
  | S fuel' =>
      flatten_loop (flatten_inplace fuel') block
        (node_indices (_sequence block))
  end.

(** The copy that [flatten(inplace=False)] works on: a deep copy with the
    two sentinel objects put back at nodes 0 and 1. *)
Definition fresh_copy (self : SequenceIR) : result SequenceIR :=
  g0 ← set_node_data (_sequence self) 0 InNode;
  g1 ← set_node_data g0 1 OutNode;
  Ok (with_sequence self g1).

(** [SequenceIR.flatten(inplace)]: the object itself after the call, the
    block the call works on (its result when it returns), and how the call
    ended. *)
Definition flatten (self : SequenceIR) (inplace : bool)
  : SequenceIR * SequenceIR * status :=
  if inplace then
    let '(block, st) := flatten_inplace (nesting_depth self) self in
    (block, block, st)
  else
    match fresh_copy self with
    | Ok copy =>
        let '(block, st) := flatten_inplace (nesting_depth copy) copy in
        (self, block, st)
    | Raise e => (self, self, Raised e)
    end.

End Flatten.

(** ** Example programs *)

Module Examples.

Import Dag IR.

Definition play (n : string) : Node := Leaf (mkInstruction n 100).

(** What the sequencing pass does: it adds edges. *)
Definition with_edges (s : SequenceIR) (es : list (nat * nat)) : SequenceIR :=
  Consolidate.with_sequence s (add_edges (_sequence s) es).

(** What the scheduling pass does: it sets times. *)
Definition with_times (s : SequenceIR) (ts : list (nat * Z)) : SequenceIR :=
  Consolidate.with_time_table s (list_to_map ts).

(** A program with the given alignment and elements, not sequenced. *)
Definition program (a : AlignmentKind) (els : list Node) : SequenceIR :=
  foldl (fun s el => fst (append s el)) (SequenceIR_new a) els.

(** [AlignLeft [ AlignLeft [ AlignLeft [] ] ]] *)
Definition nested_empty : SequenceIR :=
  program AlignLeft [Nested (program AlignLeft [Nested (program AlignLeft [])])].

(** A sequenced sequential program whose only element is an empty
    program. *)
Definition around_empty : SequenceIR :=
  with_edges (program AlignSequential [Nested (program AlignLeft [])])
    [(0, 2); (2, 1)]%nat.

(** A sequential program with one instruction, sequenced, and the same
    nested as the only element of a sequenced sequential program. *)
Definition single_sequential : SequenceIR :=
  with_edges (program AlignSequential [play "x"]) [(0, 2); (2, 1)]%nat.

Definition sequential_in_sequential : SequenceIR :=
  with_edges (program AlignSequential [Nested single_sequential])
    [(0, 2); (2, 1)]%nat.

(** A scheduled program, and a program with a nested program of which one
    instruction has no time. *)
Definition two_plays : SequenceIR :=
  with_edges (program AlignSequential [play "a"; play "b"])
    [(0, 2); (2, 3); (3, 1)]%nat.

Definition partly_scheduled : SequenceIR :=
  with_times
    (program AlignLeft
       [play "c"; Nested (with_times two_plays [(2%nat, 0)])])
    [(2%nat, 0); (3%nat, 100)].

(** A legacy program holding one [Delay] on qubit 0 without a frame. *)
Definition delay_without_frame : LegacyIR.GenericInstruction :=
  LegacyIR.mkGeneric "Delay" (Some (Model.Qubit 0)) None
    (LegacyIR.mkBase (PInt 10) (LegacyIR.OpVal (PInt 10)) (PInt 0)).

Definition unbound_program : LegacyIR.PulseIR :=
  LegacyIR.mkPulseIR None
    [LegacyIR.ElBlock
       (LegacyIR.mkPulseIR None [LegacyIR.ElGeneric delay_without_frame])].




End Examples.

(** * Properties *)

(** ** Addressing model *)

Section AddressingFacts.

Import Model.

Variable py_hash : hashable -> Z.

Lemma LogicalElement_eq_refl (e : LogicalElement) : LogicalElement_eq e e = true.
Proof.
  destruct e; unfold LogicalElement_eq; simpl; rewrite ?Z.eqb_refl; reflexivity.
Qed.

Lemma num_eq_refl (q : Qc) : num_eq q q = true.
Proof. unfold num_eq. apply bool_decide_eq_true. reflexivity. Qed.

Lemma Frame_eq_refl (f : Frame) : Frame_eq f f = true.
Proof.
  destruct f as [n fr ph | i | i]; simpl.
  - rewrite String.eqb_refl, num_eq_refl. destruct ph; simpl; auto using num_eq_refl.
  - apply String.eqb_refl.
  - apply String.eqb_refl.
Qed.



(** The comparisons of the source are structural equality of the values. *)
Lemma LogicalElement_eq_iff (a b : LogicalElement) :
  LogicalElement_eq a b = true <-> a = b.
Proof.
  split; [|intros ->; apply LogicalElement_eq_refl].
  unfold LogicalElement_eq.
  destruct a, b; simpl; try discriminate.
  - intros H. apply Z.eqb_eq in H. congruence.
  - intros H. apply andb_true_iff in H as [H1 H2].
    apply Z.eqb_eq in H1, H2. congruence.
Qed.



(** C8: a [CRMixedFrame] over a logical element and a frame equals, and
    hashes like, the [MixedFrame] over the same two; the comparison of two
    mixed frames looks at the two components and not at the class. *)
Theorem CRMixedFrame_equals_MixedFrame (l : LogicalElement) (f : Frame) :
  MixedFrame_eq (CRMixedFrame_new l f) (MixedFrame_new l f) = true
  /\ MixedFrame_eq (MixedFrame_new l f) (CRMixedFrame_new l f) = true
  /\ MixedFrame_hash py_hash (CRMixedFrame_new l f)
     = MixedFrame_hash py_hash (MixedFrame_new l f)
  /\ forall (c1 c2 c1' c2' : MixedFrameClass) (l1 l2 : LogicalElement)
       (f1 f2 : Frame),
       MixedFrame_eq (mkMixedFrame c1 l1 f1) (mkMixedFrame c2 l2 f2)
       = MixedFrame_eq (mkMixedFrame c1' l1 f1) (mkMixedFrame c2' l2 f2).
Proof.
  repeat split.
  - unfold MixedFrame_eq; simpl.
    rewrite LogicalElement_eq_refl, Frame_eq_refl. reflexivity.
  - unfold MixedFrame_eq; simpl.
    rewrite LogicalElement_eq_refl, Frame_eq_refl. reflexivity.
Qed.

(** C5: a generic frame built without a phase and one built with phase 0
    report the same phase, and yet compare unequal: the comparison reads
    the stored [_phase], which is [None] in the first. *)
Theorem GenericFrame_default_phase_unequal (n : string) (fr : Qc) :
  GenericFrame_phase None = GenericFrame_phase (Some 0%Qc)
  /\ Frame_eq (GenericFrame n fr None) (GenericFrame n fr (Some 0%Qc)) = false
  /\ Frame_eq (GenericFrame n fr (Some 0%Qc)) (GenericFrame n fr None) = false.
Proof.
  repeat split; simpl; rewrite String.eqb_refl, num_eq_refl; reflexivity.
Qed.

End AddressingFacts.

(** ** Instruction model *)

Section InstructionFacts.

Import Model LegacyIR.

(** C1: with a valid duration and no [t0], the constructor does not return:
    the test on [t0] goes on to compare [None] with 0, which raises
    [TypeError]; so do the constructors of the two instruction classes. *)
Theorem init_without_t0_raises (n : N) (operand : Operand) :
  BaseIRInstruction_init (PInt (Z.of_N n)) operand PNone = Raise TypeError
  /\ (forall (qubit : LogicalElement) (memory_slot : Z),
        AcquireInstruction_new qubit memory_slot (PInt (Z.of_N n)) PNone
        = Raise TypeError)
  /\ (forall (l : LogicalElement),
        GenericInstruction_new "Delay" (OpVal (PInt (Z.of_N n))) (Some l)
          None PNone = Raise TypeError).
Proof.
  assert (Hn : (Z.of_N n <? 0) = false) by (apply Z.ltb_ge; lia).
  assert (H : forall op, BaseIRInstruction_init (PInt (Z.of_N n)) op PNone
                         = Raise TypeError).
  { intros op. unfold BaseIRInstruction_init. simpl. rewrite Hn. reflexivity. }
  split; [apply H|]. split.
  - intros. unfold AcquireInstruction_new. rewrite H. reflexivity.
  - intros. unfold GenericInstruction_new, _validate_instruction.
    replace (bool_decide ("Delay"%string ∈ allowed_types)) with true
      by (symmetry; apply bool_decide_eq_true; unfold allowed_types;
          set_solver).
    simpl. rewrite Hn. simpl. rewrite H. reflexivity.
Qed.

End InstructionFacts.

(** ** The queries of the list-based container *)

Section QueryFacts.

Import Model LegacyIR.

Lemma frames_unfold (p : PulseIR) : frames p = frames_loop (_elements p) ∅.
Proof. destruct p; reflexivity. Qed.

Lemma logical_elements_unfold (p : PulseIR) :
  logical_elements p = logical_elements_loop (_elements p) ∅.
Proof. destruct p; reflexivity. Qed.

Lemma mixed_frames_unfold (p : PulseIR) :
  mixed_frames p = mixed_frames_loop (_elements p) ∅.
Proof. destruct p; reflexivity. Qed.

Lemma instructions_unfold (p : PulseIR) :
  instructions p = instructions_of (_elements p).
Proof. destruct p; reflexivity. Qed.

Lemma frames_loop_spec (els : list (Element PulseIR)) :
  Forall (holds_of_blocks (fun sub => frames sub = Ok (referenced_frames sub)))
         els ->
  forall acc : gset Frame,
    frames_loop els acc
    = Ok (acc ∪ list_to_set (omap frame_of (instructions_of els))).
Proof.
  induction 1 as [| e els He _ IH]; intros acc; simpl.
  - f_equal. set_solver.
  - destruct e as [g | a | sub]; simpl in *.
    + destruct (_frame g); rewrite IH; f_equal; set_solver.
    + apply IH.
    + rewrite He. simpl. rewrite IH. f_equal.
      unfold referenced_frames. rewrite omap_app, list_to_set_app_L.
      set_solver.
Qed.

Lemma frames_spec (p : PulseIR) : frames p = Ok (referenced_frames p).
Proof.
  induction p as [al els IH] using PulseIR_nested_ind.
  rewrite frames_unfold, frames_loop_spec by exact IH.
  unfold referenced_frames. rewrite instructions_unfold. simpl.
  f_equal. set_solver.
Qed.

Lemma mixed_frames_loop_spec (els : list (Element PulseIR)) :
  Forall (holds_of_blocks
            (fun sub => mixed_frames sub
                        = if all_bound (instructions sub)
                          then Ok (referenced_mixed_frames sub)
                          else Raise PulseError)) els ->
  forall acc : gset MixedFrame,
    mixed_frames_loop els acc
    = if all_bound (instructions_of els)
      then Ok (acc ∪ list_to_set (omap mixed_frame_of (instructions_of els)))
      else Raise PulseError.
Proof.
  induction 1 as [| e els He _ IH]; intros acc; simpl.
  - f_equal. set_solver.
  - destruct e as [g | a | sub]; simpl in *.
    + unfold is_bound.
      destruct (_logical_element g) as [l|], (_frame g) as [f|]; simpl;
        try reflexivity.
      rewrite IH. destruct (all_bound _); [|reflexivity].
      f_equal. set_solver.
    + apply IH.
    + rewrite He. unfold all_bound in *. rewrite forallb_app.
      destruct (forallb _ (instructions sub)); simpl; [|reflexivity].
      rewrite IH. destruct (forallb _ (instructions_of els)); [|reflexivity].
      f_equal. unfold referenced_mixed_frames.
      rewrite omap_app, list_to_set_app_L. set_solver.
Qed.

Lemma mixed_frames_spec (p : PulseIR) :
  mixed_frames p
  = if all_bound (instructions p) then Ok (referenced_mixed_frames p)
    else Raise PulseError.
Proof.
  induction p as [al els IH] using PulseIR_nested_ind.
  rewrite mixed_frames_unfold, mixed_frames_loop_spec by exact IH.
  unfold referenced_mixed_frames. rewrite instructions_unfold. simpl.
  destruct (all_bound _); [|reflexivity]. f_equal. set_solver.
Qed.

Lemma logical_elements_loop_spec (els : list (Element PulseIR)) :
  Forall (holds_of_blocks
            (fun sub => logical_elements sub
                        = if all_have_logical_element (instructions sub)
                          then Ok (referenced_logical_elements sub)
                          else Raise AttributeError)) els ->
  forall acc : gset LogicalElement,
    logical_elements_loop els acc
    = if all_have_logical_element (instructions_of els)
      then Ok (acc ∪ list_to_set
                       (omap logical_element_of (instructions_of els)))
      else Raise AttributeError.
Proof.
  induction 1 as [| e els He _ IH]; intros acc; simpl.
  - f_equal. set_solver.
  - destruct e as [g | a | sub]; simpl in *.
    + unfold has_logical_element.
      destruct (_logical_element g) as [l|]; simpl; try reflexivity.
      rewrite IH. destruct (all_have_logical_element _); [|reflexivity].
      f_equal. set_solver.
    + rewrite IH. destruct (all_have_logical_element _); [|reflexivity].
      f_equal. set_solver.
    + rewrite He. unfold all_have_logical_element in *. rewrite forallb_app.
      destruct (forallb _ (instructions sub)); simpl; [|reflexivity].
      rewrite IH. destruct (forallb _ (instructions_of els)); [|reflexivity].
      f_equal. unfold referenced_logical_elements.
      rewrite omap_app, list_to_set_app_L. set_solver.
Qed.

Lemma logical_elements_spec (p : PulseIR) :
  logical_elements p
  = if all_have_logical_element (instructions p)
    then Ok (referenced_logical_elements p)
    else Raise AttributeError.
Proof.
  induction p as [al els IH] using PulseIR_nested_ind.
  rewrite logical_elements_unfold, logical_elements_loop_spec by exact IH.
  unfold referenced_logical_elements. rewrite instructions_unfold. simpl.
  destruct (all_have_logical_element _); [|reflexivity]. f_equal. set_solver.
Qed.

Lemma all_bound_generic (l : list Instr) :
  all_bound l
  = forallb is_bound
      (omap (fun i : Instr => match i with inl g => Some g | inr _ => None end)
            l).
Proof.
  induction l as [| [g | a] l IH]; simpl; [reflexivity | | exact IH].
  rewrite IH. reflexivity.
Qed.

Lemma all_have_logical_element_generic (l : list Instr) :
  all_have_logical_element l
  = forallb has_logical_element
      (omap (fun i : Instr => match i with inl g => Some g | inr _ => None end)
            l).
Proof.
  induction l as [| [g | a] l IH]; simpl; [reflexivity | | exact IH].
  rewrite IH. reflexivity.
Qed.

(** C6, as the code has it: [frames] never fails and returns the frames of
    the generic instructions that have one; [mixed_frames] raises
    [PulseError] when some generic instruction, nested ones included, lacks
    its logical element or its frame, and returns the mixed frames of the
    generic instructions otherwise; [logical_elements] returns the logical
    elements of the generic instructions and the qubits of the acquire
    instructions when every generic instruction has a logical element. *)
Theorem queries_collect_referenced_values (p : PulseIR) :
  frames p = Ok (referenced_frames p)
  /\ mixed_frames p
     = (if forallb is_bound (generic_instructions p)
        then Ok (referenced_mixed_frames p)
        else Raise PulseError)
  /\ (forallb has_logical_element (generic_instructions p) = true ->
      logical_elements p = Ok (referenced_logical_elements p)).
Proof.
  split; [apply frames_spec|]. split.
  - rewrite mixed_frames_spec, all_bound_generic. reflexivity.
  - intros H. rewrite logical_elements_spec, all_have_logical_element_generic.
    unfold generic_instructions in H. rewrite H. reflexivity.
Qed.

Lemma queries_collect_referenced_values_witness :
  forallb has_logical_element
    (generic_instructions Examples.unbound_program) = true
  /\ logical_elements Examples.unbound_program
     = Ok (referenced_logical_elements Examples.unbound_program).
Proof.
  split; [reflexivity|].
  apply (queries_collect_referenced_values Examples.unbound_program).
  reflexivity.
Defined.

(** C6, as stated, fails for [frames]: the program holds a generic
    instruction without a frame, [mixed_frames] raises, and [frames]
    returns the empty set. *)
Lemma frames_returns_on_unbound_program :
  Exists (fun g => is_bound g = false)
         (generic_instructions Examples.unbound_program)
  /\ mixed_frames Examples.unbound_program = Raise PulseError
  /\ frames Examples.unbound_program = Ok ∅
  /\ frames Examples.unbound_program <> Raise PulseError.
Proof.
  split; [apply Exists_cons_hd; reflexivity|].
  split; [reflexivity|].
  assert (H : frames Examples.unbound_program = Ok ∅).
  { rewrite frames_spec. f_equal. }
  split; [exact H | rewrite H; discriminate].
Qed.

End QueryFacts.

(** ** Listing the scheduled elements of a program graph *)

Section ScheduledFacts.

Import Dag IR.

Lemma recursive_unfold (s : SequenceIR) (time_offset : Z) :
  _recursive_scheduled_elements s time_offset
  = recursive_loop (_time_table s) time_offset (slots (_sequence s)) 0%nat.
Proof. destruct s as [al table [sl fr ed]]; reflexivity. Qed.

Lemma recursive_loop_shape (table : gmap nat Z) (time_offset : Z)
  (l : list (option Node)) :
  Forall (holds_of_nested
            (fun sub => forall off,
                 timed_or_PulseError (_recursive_scheduled_elements sub off)))
         l ->
  forall ind, timed_or_PulseError (recursive_loop table time_offset l ind).
Proof.
  induction 1 as [| o l Ho _ IH]; intros ind; simpl.
  - constructor.
  - destruct o as [node|]; [|apply IH].
    destruct (is_sentinel_index ind); [apply IH|].
    destruct (table !! ind) as [t|]; [|reflexivity].
    specialize (IH (S ind)).
    destruct (recursive_loop table time_offset l (S ind)) as [more|e];
      simpl in IH.
    + destruct node as [| | i | sub]; simpl in *;
        try (constructor; [eexists; reflexivity | exact IH]).
      specialize (Ho (t + time_offset)).
      destruct (_recursive_scheduled_elements sub (t + time_offset));
        simpl in *; [|exact Ho].
      apply Forall_app; split; assumption.
    + destruct node as [| | i | sub]; simpl in *; try exact IH.
      specialize (Ho (t + time_offset)).
      destruct (_recursive_scheduled_elements sub (t + time_offset));
        simpl in *; assumption.
Qed.

Lemma recursive_shape (s : SequenceIR) :
  forall off, timed_or_PulseError (_recursive_scheduled_elements s off).
Proof.
  induction s as [al table g IH] using SequenceIR_nested_ind.
  intros off. rewrite recursive_unfold. simpl.
  apply recursive_loop_shape, IH.
Qed.

(** When the loop returns, every node it went over has a time, and the
    listing of every nested program returned. *)
Lemma recursive_loop_ok (table : gmap nat Z) (time_offset : Z)
  (l : list (option Node)) :
  forall k r,
    recursive_loop table time_offset l k = Ok r ->
    forall i node,
      l !! i = Some (Some node) ->
      is_sentinel_index (k + i) = false ->
      exists t, table !! (k + i)%nat = Some t
                /\ forall sub, node = Nested sub ->
                     exists r', _recursive_scheduled_elements sub
                                  (t + time_offset) = Ok r'.
Proof.
  induction l as [| o l IH]; intros k r Hr i node Hi Hs; [done|].
  destruct i as [| i].
  - simpl in Hi. injection Hi as ->. rewrite Nat.add_0_r in *.
    simpl in Hr. rewrite Hs in Hr.
    destruct (table !! k) as [t|]; [|discriminate].
    exists t. split; [reflexivity|]. intros sub ->. simpl in Hr.
    destruct (_recursive_scheduled_elements sub (t + time_offset));
      [eauto | discriminate].
  - simpl in Hi. replace (k + S i)%nat with (S k + i)%nat in * by lia.
    simpl in Hr.
    assert (exists r0, recursive_loop table time_offset l (S k) = Ok r0)
      as [r0 Hr0].
    { destruct o as [n|]; [|eauto].
      destruct (is_sentinel_index k); [eauto|].
      destruct (table !! k); [|discriminate].
      destruct (match n with Nested sub => _ | _ => _ end);
        [|discriminate].
      simpl in Hr.
      destruct (recursive_loop table time_offset l (S k));
        [eauto | discriminate]. }
    eapply IH; eassumption.
Qed.

Lemma has_unset_time_not_listed (s : SequenceIR) :
  has_unset_time s ->
  forall off r, _recursive_scheduled_elements s off <> Ok r.
Proof.
  induction 1 as [s ind node Hn Hs Ht | s ind sub Hn Hs _ IH];
    intros off r Hr; rewrite recursive_unfold in Hr;
    destruct (recursive_loop_ok _ _ _ _ _ Hr ind _ Hn Hs) as (t & Ht' & Hsub).
  - simpl in Ht'. congruence.
  - destruct (Hsub sub eq_refl) as [r' Hr']. exact (IH _ _ Hr').
Qed.

Lemma occupied_from_spec {A : Type} (l : list (option A)) :
  forall k ind,
    ind ∈ occupied_from l k
    <-> exists i x, ind = (k + i)%nat /\ l !! i = Some (Some x).
Proof.
  induction l as [| o l IH]; intros k ind; simpl.
  - split; [intros H; inversion H | intros (i & x & _ & H); done].
  - destruct o as [a|].
    + rewrite elem_of_cons, IH. split.
      * intros [-> | (i & x & -> & H)].
        -- exists 0%nat, a. split; [lia | reflexivity].
        -- exists (S i), x. split; [lia | exact H].
      * intros (i & x & -> & H). destruct i as [| i].
        -- left. lia.
        -- right. exists i, x. split; [lia | exact H].
    + rewrite IH. split.
      * intros (i & x & -> & H). exists (S i), x. split; [lia | exact H].
      * intros (i & x & -> & H). destruct i as [| i]; [done|].
        exists i, x. split; [lia | exact H].
Qed.

Lemma node_indices_spec {A : Type} (g : PyDAG A) (ind : nat) :
  ind ∈ node_indices g <-> exists x, slots g !! ind = Some (Some x).
Proof.
  unfold node_indices. rewrite occupied_from_spec. split.
  - intros (i & x & -> & H). eauto.
  - intros (x & H). exists ind, x. split; [reflexivity | exact H].
Qed.

Lemma mapM_result_fmap {A B : Type} (f : A -> result B) (h : A -> B)
  (l : list A) :
  (forall x, x ∈ l -> f x = Ok (h x)) -> mapM f l = Ok (h <$> l).
Proof.
  induction l as [| x l IH]; intros H; simpl; [reflexivity|].
  rewrite (H x) by left. simpl.
  rewrite IH by (intros y Hy; apply H; right; exact Hy). reflexivity.
Qed.

(** Without recursion, the listing returns, and a node without a time is
    listed with [None]. *)
Lemma plain_listing_keeps_None (s : SequenceIR) (ind : nat) (node : Node) :
  slots (_sequence s) !! ind = Some (Some node) ->
  is_sentinel_index ind = false ->
  _time_table s !! ind = None ->
  exists l, scheduled_elements s false = Ok l /\ (None, node) ∈ l.
Proof.
  intros Hn Hs Ht. unfold scheduled_elements.
  set (h := fun i : nat =>
              (_time_table s !! i,
               match slots (_sequence s) !! i with
               | Some (Some x) => x
               | _ => node
               end)).
  rewrite (mapM_result_fmap _ h).
  - simpl.
    assert (Hin : (None, node)
                  ∈ h <$> filter (fun i => is_sentinel_index i = false)
                                 (node_indices (_sequence s))).
    { apply list_elem_of_fmap. exists ind. split.
      - unfold h. rewrite Ht, Hn. reflexivity.
      - apply list_elem_of_filter. split; [exact Hs|].
        apply node_indices_spec. eauto. }
    eexists. split; [reflexivity|].
    unfold sort_if_scheduled.
    rewrite (mapM_None_2 (fun x : option Z * Node =>
                            fst x ≫= fun t => Some (t, snd x))); [exact Hin|].
    apply Exists_exists. exists (None, node). split; [exact Hin | reflexivity].
  - intros i Hi. apply list_elem_of_filter in Hi as [_ Hi].
    apply node_indices_spec in Hi as [x Hx].
    subst h. unfold get_node_data. simpl. rewrite Hx. reflexivity.
Qed.

(** C10: when some element at some nesting depth has no time, the
    recursive listing raises [PulseError]; a recursive listing that returns
    pairs every element with a time; the plain listing returns and pairs an
    element without a time with [None]. *)
Theorem recursive_listing_needs_every_time (s : SequenceIR) :
  (has_unset_time s -> scheduled_elements s true = Raise PulseError)
  /\ (forall l, scheduled_elements s true = Ok l ->
                Forall (fun x => fst x <> None) l)
  /\ (forall ind node,
        slots (_sequence s) !! ind = Some (Some node) ->
        is_sentinel_index ind = false ->
        _time_table s !! ind = None ->
        exists l, scheduled_elements s false = Ok l /\ (None, node) ∈ l).
Proof.
  pose proof (recursive_shape s 0) as Hshape.
  split; [|split].
  - intros Hu. unfold scheduled_elements.
    destruct (_recursive_scheduled_elements s 0) as [l|e] eqn:E; simpl in *.
    + exfalso. exact (has_unset_time_not_listed s Hu 0 l E).
    + congruence.
  - intros l. unfold scheduled_elements.
    destruct (_recursive_scheduled_elements s 0) as [l0|e]; simpl in *;
      [|discriminate].
    intros [= <-]. unfold sort_if_scheduled.
    destruct (mapM _ l0) as [timed|].
    + apply Forall_fmap, Forall_forall. intros x _. simpl. discriminate.
    + eapply Forall_impl; [exact Hshape|].
      intros x [t Hx] Hn. congruence.
  - apply plain_listing_keeps_None.
Qed.

Lemma recursive_listing_needs_every_time_witness :
  has_unset_time Examples.partly_scheduled
  /\ scheduled_elements Examples.partly_scheduled true = Raise PulseError.
Proof.
  assert (H : has_unset_time Examples.partly_scheduled).
  { apply (unset_below _ 3%nat
             (Examples.with_times Examples.two_plays [(2%nat, 0)]));
      [reflexivity | reflexivity |].
    apply (unset_here _ 3%nat (Examples.play "b")); reflexivity. }
  split; [exact H|].
  apply (proj1 (recursive_listing_needs_every_time Examples.partly_scheduled)).
  exact H.
Defined.

End ScheduledFacts.

(** ** Duration of a program graph *)

Section DurationFacts.

Import Dag IR Consolidate.

(** [duration], for a program in which reading the duration of every
    predecessor of the output sentinel returns: [None] when there is no
    predecessor or some time or duration is not set, the largest end time
    otherwise. *)
Lemma max_of_ends (s : SequenceIR) (l : list nat) :
  (forall ind, ind ∈ l -> is_ok (payload_duration s ind) = true) ->
  forall acc,
    max_of ((fun ind => end_time (_time_table s !! ind)
                          (payload_duration s ind)) <$> l) acc
    = match mapM (resolved_end s) l with
      | Some ends => Ok (foldl larger acc ends)
      | None => Raise TypeError
      end.
Proof.
  induction l as [| ind l IH]; intros H acc; [reflexivity|].
  assert (Hl : forall i, i ∈ l -> is_ok (payload_duration s i) = true)
    by (intros i Hi; apply H; right; exact Hi).
  specialize (IH Hl).
  pose proof (H ind ltac:(left)) as Hind.
  assert (Hterm : end_time (_time_table s !! ind) (payload_duration s ind)
                  = match resolved_end s ind with
                    | Some v => Ok v
                    | None => Raise TypeError
                    end).
  { unfold end_time, resolved_end.
    destruct (payload_duration s ind) as [d|]; [|discriminate].
    destruct (_time_table s !! ind) as [t|], d as [d|]; reflexivity. }
  cbn [fmap list_fmap max_of mapM]. rewrite Hterm.
  destruct (resolved_end s ind) as [v|]; simpl; [|reflexivity].
  rewrite IH. destruct (mapM (resolved_end s) l); reflexivity.
Qed.

Lemma duration_unfold (s : SequenceIR) :
  duration s
  = match predecessor_indices (_sequence s) 1 with
    | [] => Ok None
    | last_nodes =>
        match max_of ((fun ind => end_time (_time_table s !! ind)
                                    (payload_duration s ind))
                      <$> last_nodes) None with
        | Raise TypeError => Ok None
        | r => r
        end
    end.
Proof.
  destruct s as [al table [sl fr ed]]. simpl.
  destruct (predecessor_indices _ 1) as [| ind l]; [reflexivity|].
  assert (E : forall i,
             match ((fun o : option Node =>
                       o ≫= fun node =>
                         Some match node with
                              | InNode | OutNode => Raise AttributeError
                              | Leaf i => Ok (Some (inst_duration i))
                              | Nested sub => duration sub
                              end) <$> sl) !! i with
             | Some (Some d) => d
             | _ => Raise IndexError
             end
             = payload_duration (mkSequenceIR al table (mkDAG sl fr ed)) i).
  { intros i. unfold payload_duration. simpl. rewrite list_lookup_fmap.
    destruct (sl !! i) as [[[| | j | sub]|]|]; reflexivity. }
  match goal with
  | |- context [max_of (?f <$> ?k) None] =>
      rewrite (list_fmap_ext f
                 (fun i => end_time (table !! i)
                             (payload_duration
                                (mkSequenceIR al table (mkDAG sl fr ed)) i))
                 k)
  end; [reflexivity|].
  intros _ i _. simpl. rewrite E. reflexivity.
Qed.

Lemma duration_when_readable (s : SequenceIR) :
  (forall ind, ind ∈ predecessor_indices (_sequence s) 1 ->
     is_ok (payload_duration s ind) = true) ->
  duration s
  = Ok (ends ← mapM (resolved_end s) (predecessor_indices (_sequence s) 1);
        foldl larger None ends).
Proof.
  intros H. rewrite duration_unfold.
  destruct (predecessor_indices (_sequence s) 1) as [| ind l] eqn:E;
    [reflexivity|].
  rewrite max_of_ends by exact H.
  destruct (mapM (resolved_end s) (ind :: l)) as [ends|]; [|reflexivity].
  simpl. reflexivity.
Qed.

(** C7: consolidating a sequenced program whose only element is an empty
    program links the input sentinel to the output sentinel; on the result,
    whose only predecessor of the output has no time, [duration] does not
    return [None]: reading [.duration] on the sentinel raises
    [AttributeError], which the [except TypeError] clause lets through. *)
Theorem duration_raises_on_linked_sentinels :
  let linked := fst (run Examples.around_empty) in
  snd (run Examples.around_empty) = Returned
  /\ predecessor_indices (_sequence linked) 1 = [0%nat]
  /\ _time_table linked !! 0%nat = None
  /\ duration linked = Raise AttributeError.
Proof. vm_compute. repeat split. Qed.

End DurationFacts.

(** ** The consolidation pass *)

Section ConsolidateFacts.

Import Dag IR Consolidate.

(** C2: on [AlignLeft [AlignLeft [AlignLeft []]]] the pass returns a
    program that still holds one (now empty) nested program, and run on
    that it returns a program without elements: the second result is not
    equal to the first. *)
Theorem consolidating_again_changes_program :
  let once := fst (run Examples.nested_empty) in
  let twice := fst (run once) in
  snd (run Examples.nested_empty) = Returned
  /\ snd (run once) = Returned
  /\ length (elements once) = 1%nat
  /\ length (elements twice) = 0%nat
  /\ SequenceIR_eqb twice once = false.
Proof. vm_compute. repeat split. Qed.

(** C4: when some node other than the sentinels has a time, the call
    raises [PulseCompilerError] and the program it was given is as it was:
    nodes, edges and time table. *)
Theorem consolidation_refuses_scheduled (prog : SequenceIR) (ind : nat) (t : Z) :
  ind ∈ node_indices (_sequence prog) ->
  is_sentinel_index ind = false ->
  time_table prog !! ind = Some t ->
  run prog = (prog, Raised PulseCompilerError)
  /\ forall fuel,
       _consolidate_recursion (S fuel) prog = (prog, Raised PulseCompilerError).
Proof.
  intros Hin Hs Ht.
  assert (Hsch : already_scheduled prog = true).
  { unfold already_scheduled. apply existsb_exists. exists ind. split.
    - apply list_elem_of_In, Hin.
    - rewrite Hs. simpl. apply bool_decide_eq_true. rewrite Ht. discriminate. }
  assert (H : forall fuel, _consolidate_recursion (S fuel) prog
                           = (prog, Raised PulseCompilerError)).
  { intros fuel. simpl. rewrite Hsch. reflexivity. }
  split; [|exact H].
  unfold run. destruct prog as [al table g]. simpl nesting_depth. apply H.
Qed.

Lemma consolidation_refuses_scheduled_witness :
  run Examples.partly_scheduled
  = (Examples.partly_scheduled, Raised PulseCompilerError).
Proof.
  apply (consolidation_refuses_scheduled Examples.partly_scheduled 2%nat 0).
  - apply list_elem_of_In. simpl. right. right. left. reflexivity.
  - reflexivity.
  - reflexivity.
Defined.

(** *** The recursion is bounded by the nesting depth *)

Lemma nesting_depth_unfold (prog : SequenceIR) :
  nesting_depth prog = S (max_list (node_depth <$> slots (_sequence prog))).
Proof. destruct prog as [al table [sl fr ed]]. reflexivity. Qed.

Lemma max_list_le (l : list nat) (d : nat) :
  (max_list l <= d)%nat <-> Forall (fun n => (n <= d)%nat) l.
Proof.
  induction l as [| n l IH]; simpl.
  - split; [constructor | lia].
  - rewrite Forall_cons, <- IH. lia.
Qed.

Lemma nesting_depth_le (prog : SequenceIR) (d : nat) :
  (nesting_depth prog <= S d)%nat <-> depth_le d (_sequence prog).
Proof.
  rewrite nesting_depth_unfold. unfold depth_le.
  rewrite <- Forall_fmap with (f := node_depth) (P := fun n => (n <= d)%nat).
  rewrite <- max_list_le. lia.
Qed.

Lemma depth_le_insert (d : nat) (sl : list (option Node)) (ind : nat)
  (o : option Node) :
  Forall (fun o => (node_depth o <= d)%nat) sl ->
  (node_depth o <= d)%nat ->
  Forall (fun o => (node_depth o <= d)%nat) (<[ind := o]> sl).
Proof. intros H Ho. apply Forall_insert; assumption. Qed.

Lemma depth_le_add_node (d : nat) (g : PyDAG Node) (x : Node) :
  depth_le d g -> (node_depth (Some x) <= d)%nat ->
  depth_le d (fst (add_node g x)).
Proof.
  unfold depth_le, add_node. intros H Hx.
  destruct (free g) as [| ind rest]; simpl.
  - apply Forall_app. split; [exact H | repeat constructor; exact Hx].
  - apply depth_le_insert; assumption.
Qed.

Lemma slots_add_edge (g : PyDAG Node) (e : nat * nat) :
  slots (add_edge g e) = slots g.
Proof. unfold add_edge. destruct (has_edge g e); reflexivity. Qed.

Lemma slots_add_edges (es : list (nat * nat)) :
  forall g : PyDAG Node, slots (add_edges g es) = slots g.
Proof.
  induction es as [| e es IH]; intros g; simpl; [reflexivity|].
  unfold add_edges in *. simpl. rewrite IH. apply slots_add_edge.
Qed.

Lemma depth_le_remove_node (d : nat) (g : PyDAG Node) (ind : nat) :
  depth_le d g -> depth_le d (remove_node g ind).
Proof.
  unfold depth_le, remove_node. intros H.
  destruct (has_node g ind); simpl; [|exact H].
  apply depth_le_insert; [exact H | simpl; lia].
Qed.

Lemma depth_le_remove_node_retain_edges (d : nat) (g : PyDAG Node)
  (ind : nat) :
  depth_le d g -> depth_le d (remove_node_retain_edges g ind).
Proof.
  intros H. unfold remove_node_retain_edges.
  apply depth_le_remove_node. unfold depth_le. rewrite slots_add_edges.
  exact H.
Qed.

Lemma depth_le_set_node_data (d : nat) (g g' : PyDAG Node) (ind : nat)
  (x : Node) :
  depth_le d g -> (node_depth (Some x) <= d)%nat ->
  set_node_data g ind x = Ok g' -> depth_le d g'.
Proof.
  unfold depth_le, set_node_data. intros H Hx.
  destruct (has_node g ind); [|discriminate].
  intros [= <-]. simpl. apply depth_le_insert; assumption.
Qed.

Lemma depth_le_copy_nodes (d : nat) (other : list (option Node)) :
  Forall (fun o => (node_depth o <= d)%nat) other ->
  forall (g : PyDAG Node) ind out_map,
    depth_le d g -> depth_le d (fst (copy_nodes g other ind out_map)).
Proof.
  induction 1 as [| o other Ho _ IH]; intros g ind out_map Hg; simpl;
    [exact Hg|].
  destruct o as [x|]; [|apply IH, Hg].
  pose proof (depth_le_add_node d g x Hg Ho) as Hadd.
  destruct (add_node g x) as [g' new]. apply IH. exact Hadd.
Qed.

Lemma slots_reattach (out_map : NodeMap) (pick : nat * nat -> option nat)
  (mk : nat -> nat * nat -> nat * nat) (es : list (nat * nat)) :
  forall g g' : PyDAG Node,
    reattach g out_map pick mk es = Ok g' -> slots g' = slots g.
Proof.
  induction es as [| e es IH]; intros g g'; simpl.
  - intros [= <-]. reflexivity.
  - destruct (pick e) as [old|]; [|apply IH].
    destruct (node_map_get out_map old) as [new|]; simpl; [|discriminate].
    intros H. rewrite (IH _ _ H). apply slots_add_edge.
Qed.

Lemma depth_le_substitute (d : nat) (g other g' : PyDAG Node) (node : nat)
  (edge_map_fn : nat -> nat -> option nat) (nodes_mapping : NodeMap) :
  depth_le d g -> depth_le d other ->
  substitute_node_with_subgraph g node other edge_map_fn
  = Ok (g', nodes_mapping) ->
  depth_le d g'.
Proof.
  intros Hg Ho. unfold substitute_node_with_subgraph.
  destruct (negb (has_node g node)); [discriminate|].
  pose proof (depth_le_copy_nodes d (slots other) Ho g 0%nat [] Hg) as Hc.
  destruct (copy_nodes g (slots other) 0 []) as [g1 out_map]. simpl in Hc.
  destruct out_map as [| p out_map'].
  - intros [= <- <-]. apply depth_le_remove_node, Hg.
  - set (out_map := p :: out_map') in *.
    match goal with
    | |- context [reattach ?g2 out_map ?pick ?mk ?es] =>
        destruct (reattach g2 out_map pick mk es) as [g3|] eqn:E3;
        simpl; [|discriminate]
    end.
    match goal with
    | |- context [reattach g3 out_map ?pick ?mk ?es] =>
        destruct (reattach g3 out_map pick mk es) as [g4|] eqn:E4;
        simpl; [|discriminate]
    end.
    intros [= <- <-]. apply depth_le_remove_node.
    unfold depth_le.
    rewrite (slots_reattach _ _ _ _ _ _ E4), (slots_reattach _ _ _ _ _ _ E3).
    rewrite slots_add_edges. exact Hc.
Qed.

Lemma depth_le_elements (d : nat) (sub : SequenceIR) (element : Node) :
  depth_le d (_sequence sub) -> element ∈ elements sub ->
  (node_depth (Some element) <= d)%nat.
Proof.
  unfold depth_le, elements, nodes. intros H Hin.
  apply (subseteq_drop 2) in Hin.
  apply list_elem_of_omap in Hin as (o & Ho & Hid).
  rewrite Forall_forall in H. specialize (H o Ho).
  destruct o; simpl in Hid; [|discriminate]. injection Hid as ->. exact H.
Qed.

Lemma depth_le_mono (d d' : nat) (g : PyDAG Node) :
  (d <= d')%nat -> depth_le d g -> depth_le d' g.
Proof.
  unfold depth_le. intros Hd H. eapply Forall_impl; [exact H|].
  intros o Ho. simpl in *. lia.
Qed.

Lemma depth_le_get_node_data (d : nat) (g : PyDAG Node) (ind : nat)
  (x : Node) :
  depth_le d g -> get_node_data g ind = Ok x ->
  (node_depth (Some x) <= d)%nat.
Proof.
  unfold depth_le, get_node_data. intros H.
  destruct (slots g !! ind) as [[y|]|] eqn:E; try discriminate.
  intros [= <-]. rewrite Forall_lookup in H. exact (H _ _ E).
Qed.

Section FuelBody.

Variable recurse : SequenceIR -> SequenceIR * status.
Variable d : nat.
Hypothesis recurse_ok :
  forall sub, (nesting_depth sub <= d)%nat ->
    snd (recurse sub) <> OutOfFuel
    /\ (nesting_depth (fst (recurse sub)) <= nesting_depth sub)%nat.

Lemma replace_by_single_depth (prog : SequenceIR) (ind : nat)
  (sub_prog : SequenceIR) :
  depth_le d (_sequence prog) ->
  (nesting_depth sub_prog <= d)%nat ->
  snd (replace_by_single prog ind sub_prog) <> OutOfFuel
  /\ depth_le d (_sequence (fst (replace_by_single prog ind sub_prog))).
Proof.
  intros Hp Hsub. unfold replace_by_single.
  destruct (elements sub_prog) as [| element rest] eqn:Hel;
    [split; [discriminate | exact Hp]|].
  destruct (set_node_data _ _ _) as [g|] eqn:Hset;
    [|split; [discriminate | exact Hp]].
  split; [discriminate|]. simpl.
  eapply depth_le_set_node_data; [exact Hp | | exact Hset].
  destruct d as [| d']; [pose proof (nesting_depth_unfold sub_prog); lia|].
  apply nesting_depth_le in Hsub.
  assert (node_depth (Some element) <= d')%nat; [|lia].
  eapply depth_le_elements; [exact Hsub|]. rewrite Hel. left.
Qed.

Lemma inline_sub_prog_depth (prog : SequenceIR) (ind : nat)
  (sub_prog : SequenceIR) :
  depth_le d (_sequence prog) ->
  (nesting_depth sub_prog <= d)%nat ->
  snd (inline_sub_prog prog ind sub_prog) <> OutOfFuel
  /\ depth_le d (_sequence (fst (inline_sub_prog prog ind sub_prog))).
Proof.
  intros Hp Hsub. unfold inline_sub_prog.
  destruct (substitute_node_with_subgraph _ _ _ _)
    as [[g nodes_mapping]|] eqn:Hsubst; [|split; [discriminate | exact Hp]].
  assert (Hg : depth_le d g).
  { eapply depth_le_substitute; [exact Hp | | exact Hsubst].
    apply depth_le_mono with (d := pred d); [lia|].
    destruct d as [| d']; [pose proof (nesting_depth_unfold sub_prog); lia|].
    apply nesting_depth_le. exact Hsub. }
  set (prog1 := with_sequence prog g).
  assert (Hshift : forall table s0 t0 m,
             snd (shift_spliced_times table s0 t0 m) <> OutOfFuel).
  { intros table s0 t0 m. revert table.
    induction m as [| [old new] m IH]; intros table; simpl; [discriminate|].
    destruct (is_sentinel_index old); [apply IH|].
    destruct (s0 !! old); [apply IH | discriminate]. }
  destruct (time_table prog1 !! ind) as [initial_time|].
  - pose proof (Hshift (time_table prog1) (time_table sub_prog) initial_time
                  nodes_mapping) as Hst.
    destruct (shift_spliced_times _ _ _ _) as [table st]. simpl in Hst.
    destruct st; simpl; try (split; [try discriminate; congruence | exact Hg]).
    destruct (node_map_get nodes_mapping 0) as [new_in|];
      [|split; [discriminate | exact Hg]].
    destruct (node_map_get nodes_mapping 1) as [new_out|]; simpl;
      (split; [discriminate|]);
      repeat apply depth_le_remove_node_retain_edges; exact Hg.
  - destruct (node_map_get nodes_mapping 0) as [new_in|];
      [|split; [discriminate | exact Hg]].
    destruct (node_map_get nodes_mapping 1) as [new_out|]; simpl;
      (split; [discriminate|]);
      repeat apply depth_le_remove_node_retain_edges; exact Hg.
Qed.

Lemma consolidate_node_depth (prog : SequenceIR) (ind : nat) :
  depth_le d (_sequence prog) ->
  snd (consolidate_node recurse prog ind) <> OutOfFuel
  /\ depth_le d (_sequence (fst (consolidate_node recurse prog ind))).
Proof.
  intros Hp. unfold consolidate_node.
  destruct (is_sentinel_index ind); [split; [discriminate | exact Hp]|].
  destruct (get_node_data (_sequence prog) ind) as [[| | i | sub_prog]|e]
    eqn:Hnode; try (split; [discriminate | exact Hp]).
  destruct (bool_decide _).
  { split; [discriminate|]. simpl.
    apply depth_le_remove_node_retain_edges, Hp. }
  pose proof (depth_le_get_node_data d _ _ _ Hp Hnode) as Hsub.
  simpl in Hsub.
  destruct (recurse_ok sub_prog Hsub) as [Hst Hdepth].
  destruct (recurse sub_prog) as [sub_prog' st]. simpl in Hst, Hdepth.
  set (prog' := match set_node_data _ _ _ with
                | Ok g => with_sequence prog g
                | Raise _ => prog
                end).
  assert (Hp' : depth_le d (_sequence prog')).
  { subst prog'.
    destruct (set_node_data _ _ _) as [g|] eqn:Hset; [|exact Hp].
    simpl. eapply depth_le_set_node_data; [exact Hp | | exact Hset].
    simpl. lia. }
  destruct st; try (split; [try discriminate; congruence | exact Hp']).
  destruct (_ && _); [apply replace_by_single_depth; [exact Hp' | lia]|].
  destruct (_ && _); [apply inline_sub_prog_depth; [exact Hp' | lia]|].
  split; [discriminate | exact Hp'].
Qed.

Lemma consolidate_loop_depth (inds : list nat) :
  forall prog,
    depth_le d (_sequence prog) ->
    snd (consolidate_loop recurse prog inds) <> OutOfFuel
    /\ depth_le d (_sequence (fst (consolidate_loop recurse prog inds))).
Proof.
  induction inds as [| ind inds IH]; intros prog Hp; simpl;
    [split; [discriminate | exact Hp]|].
  destruct (consolidate_node_depth prog ind Hp) as [Hst Hp'].
  destruct (consolidate_node recurse prog ind) as [prog' st].
  simpl in Hst, Hp'.
  destruct st; try (split; [try discriminate; congruence | exact Hp']).
  apply IH, Hp'.
Qed.

End FuelBody.

Lemma consolidate_recursion_fuel (fuel : nat) :
  forall prog,
    (nesting_depth prog <= fuel)%nat ->
    snd (_consolidate_recursion fuel prog) <> OutOfFuel
    /\ (nesting_depth (fst (_consolidate_recursion fuel prog))
        <= nesting_depth prog)%nat.
Proof.
  induction fuel as [| fuel IH]; intros prog Hfuel.
  - pose proof (nesting_depth_unfold prog). lia.
  - simpl.
    destruct (already_scheduled prog); [split; [discriminate | done]|].
    pose proof (nesting_depth_unfold prog) as Hd.
    set (d := max_list (node_depth <$> slots (_sequence prog))) in *.
    assert (Hp : depth_le d (_sequence prog))
      by (apply nesting_depth_le; lia).
    assert (Hrec : forall sub, (nesting_depth sub <= d)%nat ->
               snd (_consolidate_recursion fuel sub) <> OutOfFuel
               /\ (nesting_depth (fst (_consolidate_recursion fuel sub))
                   <= nesting_depth sub)%nat).
    { intros sub Hsub. apply IH. lia. }
    destruct (consolidate_loop_depth (_consolidate_recursion fuel) d Hrec
                (node_indices (_sequence prog)) prog Hp) as [Hst Hp'].
    split; [exact Hst|]. rewrite Hd. apply nesting_depth_le. exact Hp'.
Qed.

(** The pass never stops for want of fuel: it returns or it raises. *)
Lemma run_terminates (prog : SequenceIR) : snd (run prog) <> OutOfFuel.
Proof. apply consolidate_recursion_fuel. unfold run. lia. Qed.

(** *** The time table is not written *)

Lemma time_table_with_sequence (prog : SequenceIR) (g : PyDAG Node) :
  time_table (with_sequence prog g) = time_table prog.
Proof. reflexivity. Qed.

Lemma replace_by_single_time_table (prog : SequenceIR) (ind : nat)
  (sub_prog : SequenceIR) :
  time_table (fst (replace_by_single prog ind sub_prog)) = time_table prog.
Proof.
  unfold replace_by_single.
  destruct (elements sub_prog); [reflexivity|].
  destruct (set_node_data _ _ _); reflexivity.
Qed.

(** Without a time for the replaced node, the branch that moves the times
    of the spliced nodes is not taken. *)
Lemma inline_sub_prog_time_table (prog : SequenceIR) (ind : nat)
  (sub_prog : SequenceIR) :
  time_table prog !! ind = None ->
  time_table (fst (inline_sub_prog prog ind sub_prog)) = time_table prog.
Proof.
  intros Hnone. unfold inline_sub_prog.
  destruct (substitute_node_with_subgraph _ _ _ _) as [[g nodes_mapping]|e];
    [|reflexivity].
  rewrite time_table_with_sequence, Hnone.
  destruct (node_map_get nodes_mapping 0); [|reflexivity].
  destruct (node_map_get nodes_mapping 1); reflexivity.
Qed.

Lemma consolidate_node_time_table
  (recurse : SequenceIR -> SequenceIR * status) (prog : SequenceIR)
  (ind : nat) :
  is_sentinel_index ind = true \/ time_table prog !! ind = None ->
  time_table (fst (consolidate_node recurse prog ind)) = time_table prog.
Proof.
  intros H. unfold consolidate_node.
  destruct (is_sentinel_index ind) eqn:Hs; [reflexivity|].
  destruct H as [H | H]; [discriminate|].
  destruct (get_node_data (_sequence prog) ind) as [[| | i | sub_prog]|e];
    try reflexivity.
  destruct (bool_decide _); [reflexivity|].
  destruct (recurse sub_prog) as [sub_prog' st].
  set (prog' := match set_node_data _ _ _ with
                | Ok g => with_sequence prog g
                | Raise _ => prog
                end).
  assert (Hprog' : time_table prog' = time_table prog).
  { subst prog'. destruct (set_node_data _ _ _); reflexivity. }
  destruct st; try exact Hprog'.
  destruct (_ && _).
  - rewrite replace_by_single_time_table. exact Hprog'.
  - destruct (_ && _); [|exact Hprog'].
    rewrite inline_sub_prog_time_table; rewrite Hprog'; [reflexivity | exact H].
Qed.

Lemma consolidate_loop_time_table
  (recurse : SequenceIR -> SequenceIR * status) (inds : list nat) :
  forall prog,
    (forall ind, ind ∈ inds ->
       is_sentinel_index ind = true \/ time_table prog !! ind = None) ->
    time_table (fst (consolidate_loop recurse prog inds)) = time_table prog.
Proof.
  induction inds as [| ind inds IH]; intros prog H; simpl; [reflexivity|].
  pose proof (consolidate_node_time_table recurse prog ind
                (H ind ltac:(left))) as Hnode.
  destruct (consolidate_node recurse prog ind) as [prog' st].
  simpl in Hnode.
  destruct st; try exact Hnode.
  rewrite IH; [exact Hnode|].
  intros i Hi. rewrite Hnode. apply H. right. exact Hi.
Qed.

Lemma not_scheduled_entries (prog : SequenceIR) :
  already_scheduled prog = false ->
  forall ind, ind ∈ node_indices (_sequence prog) ->
    is_sentinel_index ind = true \/ time_table prog !! ind = None.
Proof.
  intros Hsch ind Hin. unfold already_scheduled in Hsch.
  destruct (is_sentinel_index ind) eqn:Hs; [left; reflexivity | right].
  destruct (time_table prog !! ind) as [t|] eqn:Ht; [|reflexivity].
  exfalso. apply not_true_iff_false in Hsch. apply Hsch.
  apply existsb_exists. exists ind. split.
  - apply list_elem_of_In, Hin.
  - rewrite Hs. simpl. apply bool_decide_eq_true. rewrite Ht. discriminate.
Qed.

Lemma consolidate_recursion_time_table (fuel : nat) (prog : SequenceIR) :
  time_table (fst (_consolidate_recursion fuel prog)) = time_table prog.
Proof.
  destruct fuel as [| fuel]; simpl; [reflexivity|].
  destruct (already_scheduled prog) eqn:Hsch; [reflexivity|].
  apply consolidate_loop_time_table, not_scheduled_entries, Hsch.
Qed.

(** C9: the pass leaves the time table as it was, whatever the program and
    however the call ends; when the test that opens the pass lets the
    program through, the entry of every node other than the sentinels was
    [None], and it is [None] afterwards. *)
Theorem consolidation_keeps_time_table (prog : SequenceIR) :
  (forall fuel,
     time_table (fst (_consolidate_recursion fuel prog)) = time_table prog)
  /\ time_table (fst (run prog)) = time_table prog
  /\ (already_scheduled prog = false ->
      forall ind, ind ∈ node_indices (_sequence prog) ->
        is_sentinel_index ind = false ->
        time_table prog !! ind = None
        /\ time_table (fst (run prog)) !! ind = None).
Proof.
  split; [intros fuel; apply consolidate_recursion_time_table|].
  split; [apply consolidate_recursion_time_table|].
  intros Hsch ind Hin Hs.
  unfold run. rewrite consolidate_recursion_time_table.
  destruct (not_scheduled_entries prog Hsch ind Hin) as [H | H];
    [congruence | split; exact H].
Qed.

Lemma consolidation_keeps_time_table_witness :
  already_scheduled Examples.sequential_in_sequential = false
  /\ 2%nat ∈ node_indices (_sequence Examples.sequential_in_sequential)
  /\ time_table (fst (run Examples.sequential_in_sequential)) !! 2%nat = None.
Proof.
  assert (Hin : 2%nat
                ∈ node_indices (_sequence Examples.sequential_in_sequential)).
  { apply list_elem_of_In. simpl. right. right. left. reflexivity. }
  split; [reflexivity|]. split; [exact Hin|].
  apply (proj2 (proj2 (consolidation_keeps_time_table
                         Examples.sequential_in_sequential))
           eq_refl 2%nat Hin eq_refl).
Defined.

(** *** A single element under two sequential alignments *)

(** C3, as the code has it: a nested program left with a single element by
    the recursive call, sequential and held by a sequential program, is
    replaced by that element at its own node; indices, vacant slots and
    edges of the graph stay as they are. *)
Theorem single_element_replaced_in_place (fuel : nat)
  (prog sub_prog sub_prog' : SequenceIR) (ind : nat) (element : Node) :
  is_sentinel_index ind = false ->
  get_node_data (_sequence prog) ind = Ok (Nested sub_prog) ->
  length (elements sub_prog) <> 0%nat ->
  _consolidate_recursion fuel sub_prog = (sub_prog', Returned) ->
  alignment sub_prog' = AlignSequential ->
  alignment prog = AlignSequential ->
  elements sub_prog' = [element] ->
  consolidate_node (_consolidate_recursion fuel) prog ind
  = (with_sequence prog
       (mkDAG (<[ind := Some element]> (slots (_sequence prog)))
              (free (_sequence prog)) (edges (_sequence prog))),
     Returned).
Proof.
  intros Hs Hnode Hlen Hrec Hal _ Hel.
  unfold consolidate_node. rewrite Hs, Hnode.
  rewrite bool_decide_eq_false_2 by exact Hlen.
  rewrite Hrec.
  assert (Hhas : has_node (_sequence prog) ind = true).
  { unfold has_node. unfold get_node_data in Hnode.
    destruct (slots (_sequence prog) !! ind) as [[x|]|]; done. }
  unfold set_node_data at 1. rewrite Hhas.
  rewrite Hal, Hel. simpl.
  unfold replace_by_single. rewrite Hel.
  unfold set_node_data. simpl.
  assert (Hhas' : has_node
            {| slots := <[ind:=Some (Nested sub_prog')]> (slots (_sequence prog));
               free := free (_sequence prog);
               edges := edges (_sequence prog) |} ind = true).
  { unfold has_node in *. simpl.
    destruct (slots (_sequence prog) !! ind) as [[x|]|] eqn:E; try done.
    rewrite list_lookup_insert_eq; [done|].
    apply lookup_lt_Some in E. exact E. }
  rewrite Hhas'. unfold with_sequence. simpl.
  rewrite list_insert_insert_eq. reflexivity.
Qed.

Lemma single_element_replaced_in_place_witness :
  consolidate_node (_consolidate_recursion 1)
    Examples.sequential_in_sequential 2
  = (with_sequence Examples.sequential_in_sequential
       (mkDAG (<[2%nat := Some (Examples.play "x")]>
                 (slots (_sequence Examples.sequential_in_sequential)))
              (free (_sequence Examples.sequential_in_sequential))
              (edges (_sequence Examples.sequential_in_sequential))),
     Returned).
Proof.
  apply (single_element_replaced_in_place 1
           Examples.sequential_in_sequential Examples.single_sequential
           Examples.single_sequential 2 (Examples.play "x"));
    try reflexivity.
  simpl. lia.
Defined.

(** C3, as stated, fails: with both alignments sequential and a single
    element, the pass leaves the element at node 2, where the nested
    program was; inlining would have put it at a new node, 5. *)
Lemma single_sequential_not_inlined :
  alignment Examples.sequential_in_sequential = AlignSequential
  /\ get_node_data (_sequence Examples.sequential_in_sequential) 2
     = Ok (Nested Examples.single_sequential)
  /\ alignment Examples.single_sequential = AlignSequential
  /\ length (elements Examples.single_sequential) = 1%nat
  /\ snd (run Examples.sequential_in_sequential) = Returned
  /\ node_indices (_sequence (fst (run Examples.sequential_in_sequential)))
     = [0; 1; 2]%nat
  /\ node_indices
       (_sequence (fst (inline_sub_prog Examples.sequential_in_sequential 2
                          Examples.single_sequential)))
     = [0; 1; 5]%nat
  /\ fst (run Examples.sequential_in_sequential)
     <> fst (inline_sub_prog Examples.sequential_in_sequential 2
               Examples.single_sequential).
Proof.
  repeat split; try reflexivity.
  intros H.
  apply (f_equal (fun p => node_indices (_sequence p))) in H.
  vm_compute in H. discriminate.
Qed.

End ConsolidateFacts.

(** * Further properties *)

(** ** Addressing model: construction, equality and hashing *)

Section AddressingMore.

Import Model.

Variable py_hash : hashable -> Z.

Lemma validate_qubit_index_spec (v : pyval) :
  validate_qubit_index v
  = match v with
    | PInt z => if is_nonneg_int v then Ok z else Raise PulseError
    | _ => Raise PulseError
    end.
Proof.
  destruct v as [| z | q | s]; try reflexivity.
  unfold validate_qubit_index. simpl.
  destruct (Z.ltb_spec z 0), (Z.leb_spec 0 z); try lia; reflexivity.
Qed.

(** X1: the four indexed constructors accept exactly the non-negative
    integers and raise [PulseError] on everything else, [None] and strings
    included; a coupler needs both its indices to pass, and the first bad
    one decides. *)
Theorem indexed_constructors_validate (v w : pyval) :
  Qubit_new v
  = (if is_nonneg_int v
     then match v with PInt z => Ok (Qubit z) | _ => Raise PulseError end
     else Raise PulseError)
  /\ QubitFrame_new v
     = (if is_nonneg_int v
        then match v with PInt z => Ok (QubitFrame z) | _ => Raise PulseError end
        else Raise PulseError)
  /\ MeasurementFrame_new v
     = (if is_nonneg_int v
        then match v with
             | PInt z => Ok (MeasurementFrame z)
             | _ => Raise PulseError
             end
        else Raise PulseError)
  /\ Coupler_new v w
     = (if is_nonneg_int v && is_nonneg_int w
        then match v, w with
             | PInt i, PInt j => Ok (Coupler i j)
             | _, _ => Raise PulseError
             end
        else Raise PulseError).
Proof.
  unfold Qubit_new, QubitFrame_new, MeasurementFrame_new, Coupler_new.
  rewrite !validate_qubit_index_spec.
  destruct v as [| z | q | s], w as [| z' | q' | s']; simpl;
    repeat match goal with |- context [0 <=? ?x] => destruct (0 <=? x) end;
    auto.
Qed.




End AddressingMore.

(** ** Instruction model: construction and timing *)

Section InstructionMore.

Import Model LegacyIR.

(** X5: when a [t0] is given, the base constructor returns exactly when
    [duration] and [t0] are non-negative integers, storing its three
    arguments; in every other case it raises [PulseError]. *)
Theorem init_with_t0 (duration : pyval) (operand : Operand) (t0 : pyval) :
  is_None t0 = false ->
  BaseIRInstruction_init duration operand t0
  = if is_nonneg_int duration && is_nonneg_int t0
    then Ok (mkBase duration operand t0)
    else Raise PulseError.
Proof.
  intros Ht0. unfold BaseIRInstruction_init.
  destruct duration as [| d | q | s]; try reflexivity.
  simpl. destruct (Z.ltb_spec d 0), (Z.leb_spec 0 d); try lia;
    [reflexivity|]. simpl.
  destruct t0 as [| t | q | s]; try discriminate; try reflexivity.
  simpl. destruct (Z.ltb_spec t 0), (Z.leb_spec 0 t); try lia; reflexivity.
Qed.

Lemma init_with_t0_witness :
  BaseIRInstruction_init (PInt 10) (OpVal (PInt 10)) (PInt 3)
  = Ok (mkBase (PInt 10) (OpVal (PInt 10)) (PInt 3)).
Proof.
  apply (init_with_t0 (PInt 10) (OpVal (PInt 10)) (PInt 3)). reflexivity.
Defined.



Lemma validate_instruction_raises_PulseError (ty : string) (op : Operand)
  (l : option LogicalElement) (f : option Frame) (e : exn) :
  _validate_instruction ty op l f = Raise e -> e = PulseError.
Proof.
  unfold _validate_instruction.
  destruct (negb _); [congruence|].
  destruct (String.eqb ty "Delay").
  { destruct op as [d | v]; [congruence|].
    destruct v as [| z | q | s]; simpl; try congruence.
    destruct (z <? 0); simpl; [congruence|].
    destruct (bool_decide _); congruence. }
  destruct (String.eqb ty "Play").
  { destruct op as [d | v]; [|congruence].
    destruct (_ || _); congruence. }
  destruct (negb _); [congruence|].
  destruct (bool_decide _); congruence.
Qed.

(** X7: a generic instruction that the constructor returns has one of the
    six instruction types and keeps the arguments it was given; a [Play]
    has a waveform operand, a logical element and a frame, and lasts as
    long as the waveform; a [Delay] has a non-negative integer operand and
    a logical element, and lasts that long; the four frequency and phase
    instructions have a frame and last 0; and the duration is a
    non-negative integer in every case. *)
Theorem constructed_generic_instruction (ty : string) (op : Operand)
  (l : option LogicalElement) (f : option Frame) (t0 : pyval)
  (g : GenericInstruction) :
  GenericInstruction_new ty op l f t0 = Ok g ->
  ty ∈ allowed_types
  /\ _instruction_type g = ty /\ _logical_element g = l /\ _frame g = f
  /\ _operand (generic_base g) = op
  /\ is_nonneg_int (_duration (generic_base g)) = true
  /\ (ty = "Play"%string ->
      is_bound g = true /\ op = OpPulse (_duration (generic_base g)))
  /\ (ty = "Delay"%string ->
      has_logical_element g = true
      /\ op = OpVal (_duration (generic_base g)))
  /\ (ty <> "Play"%string -> ty <> "Delay"%string ->
      _frame g <> None /\ _duration (generic_base g) = PInt 0).
Proof.
  unfold GenericInstruction_new. intros H.
  destruct (_validate_instruction ty op l f) as [d|] eqn:Hv;
    simpl in H; [|discriminate].
  destruct (BaseIRInstruction_init d op t0) as [b|] eqn:Hb;
    simpl in H; [|discriminate].
  injection H as <-. simpl.
  assert (Hbase : _duration b = d /\ _operand b = op
                  /\ is_nonneg_int d = true).
  { unfold BaseIRInstruction_init in Hb.
    destruct d as [| z | q | s]; simpl in Hb; try discriminate.
    destruct (Z.ltb_spec z 0); simpl in Hb; [discriminate|].
    destruct (or_else _ _) as [[]|]; simpl in Hb; try discriminate.
    injection Hb as <-. simpl. repeat split. apply Z.leb_le. lia. }
  destruct Hbase as (Hd & Ho & Hn). rewrite Hd, Ho.
  unfold _validate_instruction in Hv.
  destruct (bool_decide (ty ∈ allowed_types)) eqn:Hty; simpl in Hv;
    [|discriminate].
  apply bool_decide_eq_true in Hty.
  split; [exact Hty|]. do 4 (split; [reflexivity|]). split; [exact Hn|].
  destruct (String.eqb_spec ty "Delay") as [-> | HnD].
  { destruct op as [p | v]; [discriminate|].
    destruct (or_else _ _) as [[]|]; simpl in Hv; try discriminate.
    destruct (bool_decide (l = None)) eqn:Hl; [discriminate|].
    apply bool_decide_eq_false in Hl. injection Hv as <-.
    split; [discriminate|]. split; [|intros _ H; congruence].
    intros _. split; [|reflexivity].
    unfold has_logical_element. simpl. destruct l; congruence. }
  destruct (String.eqb_spec ty "Play") as [-> | HnP].
  { destruct op as [p | v]; [|discriminate].
    destruct (bool_decide (l = None)) eqn:Hl; [discriminate|].
    destruct (bool_decide (f = None)) eqn:Hf; [discriminate|].
    apply bool_decide_eq_false in Hl, Hf. simpl in Hv. injection Hv as <-.
    split; [|split; [discriminate | intros H; congruence]].
    intros _. split; [|reflexivity].
    unfold is_bound. simpl. destruct l, f; congruence. }
  destruct (negb _); [discriminate|].
  destruct (bool_decide (f = None)) eqn:Hf; [discriminate|].
  apply bool_decide_eq_false in Hf. injection Hv as <-.
  split; [congruence|]. split; [congruence|]. intros _ _. split; [exact Hf|].
  reflexivity.
Qed.

Lemma constructed_generic_instruction_witness :
  is_bound
    (mkGeneric "Play" (Some (Qubit 0)) (Some (QubitFrame 1))
       (mkBase (PInt 100) (OpPulse (PInt 100)) (PInt 0))) = true.
Proof.
  refine (proj1 (proj1 (proj2 (proj2 (proj2 (proj2 (proj2 (proj2
            (constructed_generic_instruction "Play" (OpPulse (PInt 100))
               (Some (Qubit 0)) (Some (QubitFrame 1)) (PInt 0) _ _)))))))
            eq_refl)).
  reflexivity.
Defined.



End InstructionMore.

(** ** The list-based container: flattening and searching *)

Section ContainerMore.

Import Model LegacyIR.

Lemma flatten_unfold (p : PulseIR) :
  flatten p = flatten_loop (_elements p) (PulseIR_new None).
Proof. destruct p; reflexivity. Qed.

Lemma instructions_of_elements (l : list Instr) :
  instructions_of (element_of <$> l) = l.
Proof.
  induction l as [| [g | a] l IH]; simpl; [reflexivity | |];
    f_equal; exact IH.
Qed.

Lemma flatten_loop_spec (els : list (Element PulseIR)) :
  Forall (holds_of_blocks
            (fun sub => flatten sub
                        = if all_timed (instructions sub)
                          then Ok (mkPulseIR None
                                     (element_of <$> instructions sub))
                          else Raise PulseError)) els ->
  forall flat_ir : PulseIR,
    flatten_loop els flat_ir
    = if all_timed (instructions_of els)
      then Ok (mkPulseIR (_alignment flat_ir)
                 (_elements flat_ir ++ (element_of <$> instructions_of els)))
      else Raise PulseError.
Proof.
  induction 1 as [| e els He _ IH]; intros flat_ir; simpl.
  - rewrite app_nil_r. destruct flat_ir; reflexivity.
  - destruct e as [g | a | sub]; simpl in *.
    + destruct (is_None (_t0 (generic_base g))); simpl; [reflexivity|].
      rewrite IH. simpl. rewrite <- app_assoc. reflexivity.
    + destruct (is_None (_t0 (acquire_base a))); simpl; [reflexivity|].
      rewrite IH. simpl. rewrite <- app_assoc. reflexivity.
    + rewrite He. unfold all_timed in *. rewrite forallb_app.
      destruct (forallb _ (instructions sub)); simpl; [|reflexivity].
      rewrite IH. simpl. rewrite fmap_app, <- app_assoc. reflexivity.
Qed.

Lemma flatten_spec (p : PulseIR) :
  flatten p
  = if all_timed (instructions p)
    then Ok (mkPulseIR None (element_of <$> instructions p))
    else Raise PulseError.
Proof.
  induction p as [al els IH] using PulseIR_nested_ind.
  rewrite flatten_unfold, flatten_loop_spec by exact IH.
  rewrite instructions_unfold. reflexivity.
Qed.

(** X9: flattening a program raises [PulseError] exactly when some
    instruction in it, at any depth, has no start time; otherwise it
    returns a program without alignment and without nested blocks, whose
    elements are the instructions of the program, nested ones in the place
    of their block, in order. *)
Theorem flatten_lists_instructions (p : PulseIR) :
  flatten p
  = (if all_timed (instructions p)
     then Ok (mkPulseIR None (element_of <$> instructions p))
     else Raise PulseError)
  /\ (forall q, flatten p = Ok q ->
        _alignment q = None
        /\ Forall (fun e => match e with ElBlock _ => False | _ => True end)
                  (_elements q)).
Proof.
  split; [apply flatten_spec|].
  intros q. rewrite flatten_spec.
  destruct (all_timed (instructions p)); [|discriminate].
  intros [= <-]. split; [reflexivity|]. simpl.
  apply Forall_fmap, Forall_forall. intros [g | a] _; exact I.
Qed.

Lemma by_mixed_frame_unfold (p : PulseIR) (mf : MixedFrame) :
  get_instructions_by_mixed_frame p mf
  = by_mixed_frame_loop mf (_elements p).
Proof. destruct p; reflexivity. Qed.

Lemma acquire_unfold (p : PulseIR) (q : option LogicalElement) :
  get_acquire_instructions p q = acquire_loop q (_elements p).
Proof. destruct p; reflexivity. Qed.

Lemma by_mixed_frame_spec (mf : MixedFrame) (p : PulseIR) :
  get_instructions_by_mixed_frame p mf
  = List.filter (addresses mf) (generic_instructions p).
Proof.
  unfold generic_instructions.
  induction p as [al els IH] using PulseIR_nested_ind.
  rewrite by_mixed_frame_unfold, instructions_unfold. simpl.
  induction IH as [| e els He _ IHels]; simpl; [reflexivity|].
  destruct e as [g | a | sub]; simpl in *.
  - rewrite IHels. reflexivity.
  - exact IHels.
  - rewrite He, IHels, omap_app, List.filter_app. reflexivity.
Qed.

Lemma acquire_spec (q : option LogicalElement) (p : PulseIR) :
  get_acquire_instructions p q
  = List.filter (acquires_on q) (acquire_instructions p).
Proof.
  unfold acquire_instructions.
  induction p as [al els IH] using PulseIR_nested_ind.
  rewrite acquire_unfold, instructions_unfold. simpl.
  induction IH as [| e els He _ IHels]; simpl; [reflexivity|].
  destruct e as [g | a | sub]; simpl in *.
  - exact IHels.
  - rewrite IHels. reflexivity.
  - rewrite He, IHels, omap_app, List.filter_app. reflexivity.
Qed.

(** X10: a flattened program has the instructions of the program it comes
    from, so the three queries and the two searches give on it what they
    give on the original, and flattening it again returns it. *)
Theorem flatten_keeps_queries (p q : PulseIR) :
  flatten p = Ok q ->
  instructions q = instructions p
  /\ frames q = frames p
  /\ mixed_frames q = mixed_frames p
  /\ logical_elements q = logical_elements p
  /\ (forall mf, get_instructions_by_mixed_frame q mf
                 = get_instructions_by_mixed_frame p mf)
  /\ (forall qubit, get_acquire_instructions q qubit
                    = get_acquire_instructions p qubit)
  /\ flatten q = Ok q.
Proof.
  rewrite flatten_spec.
  destruct (all_timed (instructions p)) eqn:Ht; [|discriminate].
  intros [= <-].
  assert (Hi : instructions (mkPulseIR None (element_of <$> instructions p))
               = instructions p).
  { rewrite instructions_unfold. simpl. apply instructions_of_elements. }
  split; [exact Hi|].
  split; [rewrite !frames_spec; unfold referenced_frames; rewrite Hi;
          reflexivity|].
  split; [rewrite !mixed_frames_spec; unfold referenced_mixed_frames;
          rewrite Hi; reflexivity|].
  split; [rewrite !logical_elements_spec;
          unfold referenced_logical_elements; rewrite Hi; reflexivity|].
  split; [intros mf; rewrite !by_mixed_frame_spec;
          unfold generic_instructions; rewrite Hi; reflexivity|].
  split; [intros qubit; rewrite !acquire_spec;
          unfold acquire_instructions; rewrite Hi; reflexivity|].
  rewrite flatten_spec, Hi, Ht. reflexivity.
Qed.

Lemma flatten_keeps_queries_witness :
  mixed_frames
    (mkPulseIR None
       (element_of <$> instructions Examples.unbound_program))
  = mixed_frames Examples.unbound_program.
Proof.
  apply (flatten_keeps_queries Examples.unbound_program
           (mkPulseIR None
              (element_of <$> instructions Examples.unbound_program))).
  reflexivity.
Defined.



Lemma elem_of_acquire_instructions (p : PulseIR) (a : AcquireInstruction) :
  a ∈ acquire_instructions p <-> inr a ∈ instructions p.
Proof.
  unfold acquire_instructions. rewrite list_elem_of_omap. split.
  - intros ([g | a'] & Hin & Heq); [discriminate|].
    simpl in Heq. injection Heq as ->. exact Hin.
  - intros Hin. exists (inr a). split; [exact Hin | reflexivity].
Qed.



(** X12: the search for acquire instructions returns, in program order,
    the acquire instructions at any depth, all of them when no qubit is
    given and those on the given qubit otherwise; when [logical_elements]
    returns, the qubit of every acquire instruction is in its result. *)
Theorem search_acquire_instructions (p : PulseIR) :
  get_acquire_instructions p None = acquire_instructions p
  /\ (forall q a, a ∈ get_acquire_instructions p (Some q)
        <-> a ∈ acquire_instructions p /\ _qubit a = q)
  /\ (forall (found : gset LogicalElement) a,
        logical_elements p = Ok found ->
        a ∈ get_acquire_instructions p None -> _qubit a ∈ found).
Proof.
  assert (Hall : get_acquire_instructions p None = acquire_instructions p).
  { rewrite acquire_spec. simpl.
    induction (acquire_instructions p) as [| a l IH]; simpl;
      [reflexivity | f_equal; exact IH]. }
  split; [exact Hall|]. split.
  - intros q a. rewrite acquire_spec, !list_elem_of_In, filter_In.
    simpl. rewrite LogicalElement_eq_iff. reflexivity.
  - intros found a Hfound Ha. rewrite Hall in Ha.
    rewrite logical_elements_spec in Hfound.
    destruct (all_have_logical_element (instructions p)); [|discriminate].
    injection Hfound as <-. unfold referenced_logical_elements.
    rewrite elem_of_list_to_set, list_elem_of_omap.
    exists (inr a). split; [apply elem_of_acquire_instructions, Ha|].
    reflexivity.
Qed.

End ContainerMore.

(** ** The list-based container: shifting a program *)

Section ShiftMore.

Import Model LegacyIR.






End ShiftMore.

(** ** The graph container: nodes come and go without disturbing the rest *)

Section DagMore.

Import Dag.

Context {A : Type}.

Lemma has_node_lookup (g : PyDAG A) (ind : nat) :
  has_node g ind = true <-> exists x, slots g !! ind = Some (Some x).
Proof.
  unfold has_node. destruct (slots g !! ind) as [[x|]|]; split;
    try discriminate; try (intros [y Hy]; discriminate); eauto.
Qed.

Lemma well_formed_empty : well_formed (@mkDAG A [] [] []).
Proof.
  split; [constructor|]. split.
  - intros ind. simpl. split; [intros H; inversion H | discriminate].
  - intros e H. inversion H.
Qed.

(** Adding a node to a well-formed graph: the index is new, holds the
    payload, and nothing else moves. *)
Lemma add_node_spec (g : PyDAG A) (x : A) :
  well_formed g ->
  let g' := fst (add_node g x) in
  let ind := snd (add_node g x) in
  has_node g ind = false
  /\ slots g' !! ind = Some (Some x)
  /\ (forall j, j <> ind -> slots g' !! j = slots g !! j)
  /\ edges g' = edges g
  /\ well_formed g'.
Proof.
  intros (Hnd & Hfree & Hedges). unfold add_node.
  destruct (free g) as [| ind rest] eqn:Efree; simpl.
  - assert (Hnovac : forall j, slots g !! j <> Some None).
    { intros j Hj. apply Hfree in Hj. inversion Hj. }
    split.
    { unfold has_node. rewrite lookup_ge_None_2; [reflexivity | lia]. }
    split.
    { rewrite lookup_app_r, Nat.sub_diag by lia. reflexivity. }
    split.
    { intros j Hj. destruct (decide (j < length (slots g))%nat).
      - apply lookup_app_l. assumption.
      - rewrite lookup_ge_None_2 by (rewrite length_app; simpl; lia).
        symmetry. apply lookup_ge_None_2. lia. }
    split; [reflexivity|].
    split; [constructor|]. split.
    + intros j. simpl. split; [intros H; inversion H|].
      intros Hj. exfalso.
      destruct (decide (j < length (slots g))%nat).
      * rewrite lookup_app_l in Hj by assumption. exact (Hnovac j Hj).
      * destruct (decide (j = length (slots g))) as [-> | Hne].
        -- rewrite lookup_app_r, Nat.sub_diag in Hj by lia. discriminate.
        -- rewrite lookup_ge_None_2 in Hj
             by (rewrite length_app; simpl; lia). discriminate.
    + intros e He. simpl in He. destruct (Hedges e He) as [H1 H2].
      unfold has_node in *. simpl.
      split.
      * destruct (slots g !! fst e) as [[y|]|] eqn:E1; try discriminate.
        rewrite lookup_app_l by (apply lookup_lt_Some in E1; exact E1).
        rewrite E1. reflexivity.
      * destruct (slots g !! snd e) as [[y|]|] eqn:E2; try discriminate.
        rewrite lookup_app_l by (apply lookup_lt_Some in E2; exact E2).
        rewrite E2. reflexivity.
  - assert (Hvac : slots g !! ind = Some None)
      by (apply Hfree; left).
    assert (Hlt : (ind < length (slots g))%nat)
      by (apply lookup_lt_Some in Hvac; exact Hvac).
    apply NoDup_cons in Hnd as [Hnotin Hnd'].
    split; [unfold has_node; rewrite Hvac; reflexivity|].
    split; [apply list_lookup_insert_eq; exact Hlt|].
    split; [intros j Hj; apply list_lookup_insert_ne; congruence|].
    split; [reflexivity|].
    split; [exact Hnd'|]. split.
    + intros j. simpl. destruct (decide (j = ind)) as [-> | Hne].
      * rewrite list_lookup_insert_eq by exact Hlt. split; [|discriminate].
        intros H. contradiction.
      * rewrite list_lookup_insert_ne by congruence. rewrite <- Hfree.
        split; [intros H; right; exact H|].
        intros H. apply elem_of_cons in H as [H | H]; [congruence | exact H].
    + intros e He. simpl in He. destruct (Hedges e He) as [H1 H2].
      unfold has_node in *. simpl.
      assert (Hk : forall k, match slots g !! k with
                             | Some (Some _) => true
                             | _ => false
                             end = true ->
                match <[ind:=Some x]> (slots g) !! k with
                | Some (Some _) => true
                | _ => false
                end = true).
      { intros k Hkk. destruct (decide (k = ind)) as [-> | Hne].
        - rewrite list_lookup_insert_eq by exact Hlt. reflexivity.
        - rewrite list_lookup_insert_ne by congruence. exact Hkk. }
      split; apply Hk; assumption.
Qed.

(** Removing a node from a well-formed graph: the node and its edges go,
    and nothing else moves. *)
Lemma remove_node_spec (g : PyDAG A) (ind : nat) :
  well_formed g ->
  let g' := remove_node g ind in
  has_node g' ind = false
  /\ (forall j, j <> ind -> slots g' !! j = slots g !! j)
  /\ (forall e, e ∈ edges g'
        <-> e ∈ edges g /\ fst e <> ind /\ snd e <> ind)
  /\ well_formed g'.
Proof.
  intros (Hnd & Hfree & Hedges). unfold remove_node.
  destruct (has_node g ind) eqn:Hhas; simpl.
  - assert (Hlt : (ind < length (slots g))%nat).
    { apply has_node_lookup in Hhas as [x Hx].
      apply lookup_lt_Some in Hx. exact Hx. }
    split.
    { unfold has_node. simpl. rewrite list_lookup_insert_eq by exact Hlt.
      reflexivity. }
    split; [intros j Hj; apply list_lookup_insert_ne; congruence|].
    split; [intros e; rewrite list_elem_of_filter; tauto|].
    split.
    { apply NoDup_cons. split; [|exact Hnd].
      intros Hin. apply Hfree in Hin.
      apply has_node_lookup in Hhas as [x Hx]. congruence. }
    split.
    + intros j. simpl. destruct (decide (j = ind)) as [-> | Hne].
      * rewrite list_lookup_insert_eq by exact Hlt.
        split; [reflexivity | intros _; left].
      * rewrite list_lookup_insert_ne by congruence. rewrite <- Hfree.
        split; [|intros H; right; exact H].
        intros H. apply elem_of_cons in H as [H | H]; [congruence | exact H].
    + intros e He. simpl in He.
      apply list_elem_of_filter in He as [[Hf Hs] He].
      destruct (Hedges e He) as [H1 H2]. unfold has_node in *. simpl.
      rewrite !list_lookup_insert_ne by congruence. auto.
  - split; [exact Hhas|]. split; [reflexivity|]. split.
    + intros e. split; [|tauto]. intros He. split; [exact He|].
      destruct (Hedges e He) as [H1 H2].
      split; intros Heq; rewrite Heq in *; congruence.
    + split; [exact Hnd|]. split; [exact Hfree | exact Hedges].
Qed.

End DagMore.

(** ** The program graph: appending *)

Section AppendMore.

Import Dag IR.

Lemma new_program_well_formed (a : AlignmentKind) :
  well_formed (_sequence (SequenceIR_new a)).
Proof.
  unfold SequenceIR_new, add_nodes_from. simpl.
  pose proof (add_node_spec (@mkDAG Node [] [] []) InNode well_formed_empty)
    as (_ & _ & _ & _ & H0).
  exact (proj2 (proj2 (proj2 (proj2 (add_node_spec _ OutNode H0))))).
Qed.

(** X14: appending to a program whose graph is well formed gives a node
    that was not there, holding the element; the other nodes, the edges,
    the time table and the alignment are as before, and the graph is still
    well formed.  When no node was removed before, the element comes last
    in [elements]. *)
Theorem append_adds_one_node (s : SequenceIR) (element : Node) :
  well_formed (_sequence s) ->
  has_node (_sequence s) (snd (append s element)) = false
  /\ get_node_data (_sequence (fst (append s element)))
       (snd (append s element)) = Ok element
  /\ (forall j, j <> snd (append s element) ->
        slots (_sequence (fst (append s element))) !! j
        = slots (_sequence s) !! j)
  /\ edges (_sequence (fst (append s element))) = edges (_sequence s)
  /\ _time_table (fst (append s element)) = _time_table s
  /\ alignment (fst (append s element)) = alignment s
  /\ well_formed (_sequence (fst (append s element)))
  /\ (free (_sequence s) = [] ->
      has_node (_sequence s) 0 = true -> has_node (_sequence s) 1 = true ->
      elements (fst (append s element)) = elements s ++ [element]).
Proof.
  intros Hwf.
  destruct (add_node_spec (_sequence s) element Hwf)
    as (Hnew & Hat & Hother & Hedges & Hwf').
  unfold append.
  destruct (add_node (_sequence s) element) as [g ind] eqn:E. simpl in *.
  split; [exact Hnew|].
  split; [unfold get_node_data; rewrite Hat; reflexivity|].
  split; [exact Hother|]. split; [exact Hedges|].
  do 2 (split; [reflexivity|]). split; [exact Hwf'|].
  intros Hfree H0 H1. unfold add_node in E. rewrite Hfree in E.
  injection E as <- <-. unfold elements, nodes. simpl.
  rewrite omap_app. simpl.
  apply has_node_lookup in H0 as [x0 Hx0], H1 as [x1 Hx1].
  destruct (slots (_sequence s)) as [| o0 [| o1 rest]]; try discriminate.
  simpl in Hx0, Hx1. injection Hx0 as ->. injection Hx1 as ->.
  reflexivity.
Qed.

Lemma append_adds_one_node_witness :
  elements (fst (append (SequenceIR_new AlignLeft) (Examples.play "a")))
  = elements (SequenceIR_new AlignLeft) ++ [Examples.play "a"].
Proof.
  apply (append_adds_one_node (SequenceIR_new AlignLeft) (Examples.play "a")
           (new_program_well_formed AlignLeft)); reflexivity.
Defined.

End AppendMore.

(** ** The program graph: the listing is sorted *)

Section SortedMore.

Import Dag IR.

Context {B : Type}.

Lemma insert_by_time_perm (x : Z * B) (l : list (Z * B)) :
  insert_by_time x l ≡ₚ x :: l.
Proof.
  induction l as [| y l IH]; simpl; [reflexivity|].
  destruct (fst x <? fst y); [reflexivity|].
  rewrite IH. apply Permutation_swap.
Qed.

Lemma sort_by_time_perm (l : list (Z * B)) : sort_by_time l ≡ₚ l.
Proof.
  unfold sort_by_time.
  assert (H : forall acc, foldl (fun acc x => insert_by_time x acc) acc l
                          ≡ₚ acc ++ l).
  { induction l as [| x l IH]; intros acc; simpl.
    - rewrite app_nil_r. reflexivity.
    - rewrite IH, insert_by_time_perm.
      rewrite (Permutation_middle acc l x). reflexivity. }
  exact (H []).
Qed.

Lemma insert_by_time_sorted (x : Z * B) (l : list (Z * B)) :
  StronglySorted (fun a b => fst a <= fst b) l ->
  StronglySorted (fun a b => fst a <= fst b) (insert_by_time x l).
Proof.
  induction 1 as [| y l Hs IH Hy]; simpl.
  - repeat constructor.
  - destruct (Z.ltb_spec (fst x) (fst y)).
    + constructor; [constructor; assumption|].
      constructor; [lia|].
      eapply Forall_impl; [exact Hy|]. intros z Hz. simpl in *. lia.
    + constructor; [exact IH|].
      rewrite (insert_by_time_perm x l). constructor; assumption.
Qed.

Lemma sort_by_time_sorted (l : list (Z * B)) :
  StronglySorted (fun a b => fst a <= fst b) (sort_by_time l).
Proof.
  unfold sort_by_time.
  assert (H : forall acc,
             StronglySorted (fun a b => fst a <= fst b) acc ->
             StronglySorted (fun a b => fst a <= fst b)
               (foldl (fun acc x => insert_by_time x acc) acc l)).
  { induction l as [| x l IH]; intros acc Hacc; simpl; [exact Hacc|].
    apply IH, insert_by_time_sorted, Hacc. }
  apply H. constructor.
Qed.

Lemma timed_pairs (l : list (option Z * B)) (timed : list (Z * B)) :
  mapM (fun x => fst x ≫= fun t => Some (t, snd x)) l = Some timed ->
  l = (fun x => (Some (fst x), snd x)) <$> timed.
Proof.
  revert timed. induction l as [| [[t|] b] l IH]; intros timed; simpl.
  - intros [= <-]. reflexivity.
  - destruct (mapM _ l) as [k|]; simpl; [|discriminate].
    intros [= <-]. simpl. f_equal. apply IH. reflexivity.
  - discriminate.
Qed.

Lemma sort_if_scheduled_perm (l : list (option Z * B)) :
  sort_if_scheduled l ≡ₚ l.
Proof.
  unfold sort_if_scheduled.
  destruct (mapM _ l) as [timed|] eqn:E; [|reflexivity].
  etransitivity; [apply fmap_Permutation, sort_by_time_perm|].
  rewrite <- (timed_pairs l timed E). reflexivity.
Qed.

Lemma sort_if_scheduled_sorted (l : list (option Z * B)) :
  Forall (fun x => is_Some (fst x)) l ->
  StronglySorted Z.le (omap fst (sort_if_scheduled l)).
Proof.
  intros Hall. unfold sort_if_scheduled.
  destruct (mapM _ l) as [timed|] eqn:E.
  - pose proof (sort_by_time_sorted timed) as Hs.
    induction Hs as [| x k Hk IH Hx]; simpl; [constructor|].
    constructor; [exact IH|].
    clear -Hx. induction Hx as [| y k Hy _ IH]; simpl; constructor; auto.
  - exfalso. apply mapM_None_1 in E. apply Exists_exists in E as (x & Hin & Hx).
    rewrite Forall_forall in Hall. destruct (Hall x Hin) as [t Ht].
    rewrite Ht in Hx. discriminate.
Qed.

Lemma sort_if_scheduled_unset (l : list (option Z * B)) :
  Exists (fun x => fst x = None) l -> sort_if_scheduled l = l.
Proof.
  intros Hex. unfold sort_if_scheduled.
  rewrite mapM_None_2; [reflexivity|].
  eapply Exists_impl; [exact Hex|]. intros x Hx. simpl. rewrite Hx.
  reflexivity.
Qed.

End SortedMore.

Section ListingMore.

Import Dag IR.

Lemma plain_listing_read (s : SequenceIR) :
  mapM (fun ind =>
          node ← get_node_data (_sequence s) ind;
          Ok (_time_table s !! ind, node))
       (filter (fun ind => is_sentinel_index ind = false)
               (node_indices (_sequence s)))
  = Ok (plain_listing s).
Proof.
  unfold plain_listing.
  assert (H : forall ind,
             ind ∈ filter (fun ind => is_sentinel_index ind = false)
                          (node_indices (_sequence s)) ->
             exists x, get_node_data (_sequence s) ind = Ok x).
  { intros ind Hin. apply list_elem_of_filter in Hin as [_ Hin].
    apply node_indices_spec in Hin as [x Hx].
    exists x. unfold get_node_data. rewrite Hx. reflexivity. }
  induction (filter _ (node_indices (_sequence s))) as [| ind l IH];
    [reflexivity|].
  destruct (H ind ltac:(left)) as [x Hx].
  cbn [mapM omap list_omap]. rewrite Hx. simpl.
  rewrite IH by (intros j Hj; apply H; right; exact Hj). reflexivity.
Qed.

Lemma plain_listing_returns (s : SequenceIR) :
  scheduled_elements s false = Ok (sort_if_scheduled (plain_listing s)).
Proof. unfold scheduled_elements. rewrite plain_listing_read. reflexivity. Qed.

(** X15: without recursion the listing never raises; it holds one pair for
    each node other than the sentinels; when every node has a time the
    pairs come by ascending time, and otherwise in node order.  A recursive
    listing that returns comes by ascending time. *)
Theorem listing_is_sorted (s : SequenceIR) :
  scheduled_elements s false = Ok (sort_if_scheduled (plain_listing s))
  /\ sort_if_scheduled (plain_listing s) ≡ₚ plain_listing s
  /\ (Forall (fun x => is_Some (fst x)) (plain_listing s) ->
      StronglySorted Z.le (omap fst (sort_if_scheduled (plain_listing s))))
  /\ (Exists (fun x => fst x = None) (plain_listing s) ->
      sort_if_scheduled (plain_listing s) = plain_listing s)
  /\ (forall l, scheduled_elements s true = Ok l ->
        StronglySorted Z.le (omap fst l)
        /\ length (omap fst l) = length l).
Proof.
  split; [apply plain_listing_returns|].
  split; [apply sort_if_scheduled_perm|].
  split; [apply sort_if_scheduled_sorted|].
  split; [apply sort_if_scheduled_unset|].
  intros l. unfold scheduled_elements.
  pose proof (recursive_shape s 0) as Hshape.
  destruct (_recursive_scheduled_elements s 0) as [l0|]; simpl in *;
    [|discriminate].
  intros [= <-]. split; [apply sort_if_scheduled_sorted, Hshape|].
  assert (Hall : Forall (fun x : option Z * Node => is_Some (fst x))
                   (sort_if_scheduled l0)).
  { rewrite (sort_if_scheduled_perm l0). exact Hshape. }
  induction Hall as [| [t n] k [z Hz] _ IH]; [reflexivity|].
  simpl in Hz. subst. simpl. f_equal. exact IH.
Qed.

Lemma listing_is_sorted_witness :
  StronglySorted Z.le
    (omap fst (sort_if_scheduled
                 (plain_listing
                    (Examples.with_times Examples.two_plays
                       [(2%nat, 30); (3%nat, 10)])))).
Proof.
  apply (proj1 (proj2 (proj2 (listing_is_sorted
           (Examples.with_times Examples.two_plays
              [(2%nat, 30); (3%nat, 10)]))))).
  repeat constructor; eexists; reflexivity.
Defined.

End ListingMore.

(** ** The program graph: recursive listing and offsets *)

Section RecursiveMore.

Import Dag IR.

Lemma shift_times_app (off : Z) (l k : list (option Z * Node)) :
  shift_times off (l ++ k) = shift_times off l ++ shift_times off k.
Proof. unfold shift_times. apply fmap_app. Qed.

Lemma shift_times_shift (a b : Z) (l : list (option Z * Node)) :
  shift_times b (shift_times a l) = shift_times (a + b) l.
Proof.
  unfold shift_times. rewrite <- list_fmap_compose.
  apply list_fmap_ext. intros _ [[t|] n] _; simpl; [|reflexivity].
  f_equal. f_equal. lia.
Qed.

Lemma recursive_loop_offset (table : gmap nat Z) (off : Z)
  (l : list (option Node)) :
  Forall (holds_of_nested
            (fun sub => forall off,
                 _recursive_scheduled_elements sub off
                 = shift_times off
                     <$> _recursive_scheduled_elements sub 0)) l ->
  forall ind,
    recursive_loop table off l ind
    = shift_times off <$> recursive_loop table 0 l ind.
Proof.
  induction 1 as [| o l Ho _ IH]; intros ind; simpl; [reflexivity|].
  destruct o as [node|]; [|apply IH].
  destruct (is_sentinel_index ind); [apply IH|].
  destruct (table !! ind) as [t|]; [|reflexivity].
  rewrite IH.
  destruct (recursive_loop table 0 l (S ind)) as [more|e]; simpl.
  - destruct node as [| | i | sub]; simpl;
      try (unfold shift_times; simpl; repeat f_equal; lia).
    simpl in Ho. rewrite (Ho (t + off)), (Ho (t + 0)).
    destruct (_recursive_scheduled_elements sub 0) as [here|e]; simpl;
      [|reflexivity].
    rewrite shift_times_app, shift_times_shift.
    replace (t + 0 + off) with (t + off) by lia. reflexivity.
  - destruct node as [| | i | sub]; simpl; try reflexivity.
    simpl in Ho. rewrite (Ho (t + off)), (Ho (t + 0)).
    destruct (_recursive_scheduled_elements sub 0); reflexivity.
Qed.

Lemma recursive_offset (s : SequenceIR) :
  forall off,
    _recursive_scheduled_elements s off
    = shift_times off <$> _recursive_scheduled_elements s 0.
Proof.
  induction s as [al table g IH] using SequenceIR_nested_ind.
  intros off. rewrite !recursive_unfold. simpl.
  apply recursive_loop_offset, IH.
Qed.

Lemma plain_listing_slots (s : SequenceIR) :
  plain_listing s = listing_from (_time_table s) (slots (_sequence s)) 0.
Proof.
  unfold plain_listing, node_indices.
  assert (H : forall l pre,
             slots (_sequence s) = pre ++ l ->
             omap (fun ind =>
                     match get_node_data (_sequence s) ind with
                     | Ok node => Some (_time_table s !! ind, node)
                     | Raise _ => None
                     end)
                  (filter (fun ind => is_sentinel_index ind = false)
                          (occupied_from l (length pre)))
             = listing_from (_time_table s) l (length pre)).
  { induction l as [| o l IH]; intros pre Hpre; [reflexivity|].
    assert (Hnext : slots (_sequence s) = (pre ++ [o]) ++ l)
      by (rewrite <- app_assoc; exact Hpre).
    specialize (IH _ Hnext). rewrite length_app in IH. simpl in IH.
    replace (length pre + 1)%nat with (S (length pre)) in IH by lia.
    destruct o as [x|]; simpl; [|exact IH].
    rewrite filter_cons.
    destruct (is_sentinel_index (length pre)) eqn:Hs.
    - rewrite decide_False by discriminate. exact IH.
    - rewrite decide_True by reflexivity. simpl.
      unfold get_node_data at 1. rewrite Hpre.
      rewrite lookup_app_r, Nat.sub_diag by lia. simpl.
      f_equal. exact IH. }
  exact (H (slots (_sequence s)) [] eq_refl).
Qed.

Lemma recursive_loop_flat (table : gmap nat Z) (l : list (option Node)) :
  forallb (fun o : option Node =>
             match o with Some (Nested _) => false | _ => true end) l = true ->
  forall ind,
    recursive_loop table 0 l ind
    = match mapM (fun x : option Z * Node => fst x ≫= fun _ => Some x)
              (listing_from table l ind) with
      | Some k => Ok k
      | None => Raise PulseError
      end.
Proof.
  induction l as [| o l IH]; intros Hflat ind; [reflexivity|].
  simpl in Hflat. apply andb_true_iff in Hflat as [Ho Hl].
  specialize (IH Hl). simpl.
  destruct o as [node|]; [|apply IH].
  destruct (is_sentinel_index ind); [apply IH|].
  cbn [mapM]. simpl. destruct (table !! ind) as [t|]; simpl; [|reflexivity].
  rewrite IH. rewrite Z.add_0_r.
  destruct node as [| | i | sub]; try discriminate; simpl;
    destruct (mapM _ (listing_from table l (S ind))); reflexivity.
Qed.

(** X16: a recursive listing started at an offset is the recursive listing
    started at 0 with every time moved by the offset, and raises when that
    one does; on a program without nested programs in which every node has
    a time, the recursive and the plain listing are the same. *)
Theorem recursive_listing_offsets (s : SequenceIR) (offset : Z) :
  _recursive_scheduled_elements s offset
  = shift_times offset <$> _recursive_scheduled_elements s 0
  /\ (is_flat s = true ->
      Forall (fun x => is_Some (fst x)) (plain_listing s) ->
      scheduled_elements s true = scheduled_elements s false).
Proof.
  split; [apply recursive_offset|].
  intros Hflat Hall.
  assert (Hm : mapM (fun x : option Z * Node => fst x ≫= fun _ => Some x)
                 (plain_listing s) = Some (plain_listing s)).
  { induction Hall as [| [t n] k [z Hz] _ IH]; [reflexivity|].
    simpl in Hz. subst. cbn [mapM]. simpl. rewrite IH. reflexivity. }
  rewrite plain_listing_returns. unfold scheduled_elements.
  rewrite recursive_unfold, recursive_loop_flat by exact Hflat.
  rewrite <- plain_listing_slots, Hm. reflexivity.
Qed.

Lemma recursive_listing_offsets_witness :
  scheduled_elements
    (Examples.with_times Examples.two_plays [(2%nat, 30); (3%nat, 10)]) true
  = scheduled_elements
      (Examples.with_times Examples.two_plays [(2%nat, 30); (3%nat, 10)])
      false.
Proof.
  apply (proj2 (recursive_listing_offsets
                  (Examples.with_times Examples.two_plays
                     [(2%nat, 30); (3%nat, 10)]) 0)).
  - reflexivity.
  - repeat constructor; eexists; reflexivity.
Defined.

End RecursiveMore.

(** ** The program graph: duration as the latest end *)

Section DurationMore.

Import Dag IR.

Lemma foldl_larger (l : list Z) :
  forall acc,
    match foldl larger acc l with
    | Some m =>
        Forall (fun e => e <= m) l
        /\ (forall a, acc = Some a -> a <= m)
        /\ (m ∈ l \/ acc = Some m)
    | None => acc = None /\ l = []
    end.
Proof.
  induction l as [| e l IH]; intros acc; simpl.
  - destruct acc as [a|]; [|split; reflexivity].
    split; [constructor|]. split; [intros ? [= <-]; lia | right; reflexivity].
  - specialize (IH (larger acc e)).
    destruct (foldl larger (larger acc e) l) as [m|];
      [|destruct IH as [H _]; discriminate].
    destruct IH as (Hall & Hacc & Hin).
    assert (He : e <= m /\ forall a, acc = Some a -> a <= m).
    { unfold larger in Hacc. destruct acc as [a|].
      - specialize (Hacc _ eq_refl). split; [lia|]. intros ? [= <-]. lia.
      - specialize (Hacc _ eq_refl). split; [lia|]. discriminate. }
    destruct He as [He Ha].
    split; [constructor; assumption|]. split; [exact Ha|].
    destruct Hin as [Hin | Hin]; [left; right; exact Hin|].
    unfold larger in Hin. injection Hin as Hm.
    destruct acc as [a|].
    + destruct (Z.max_spec a e) as [[_ Hmax] | [_ Hmax]];
        rewrite Hmax in Hm; subst; [left; left | right; reflexivity].
    + subst. left. left.
Qed.

(** X17: in a program where reading the duration of every predecessor of
    the output sentinel returns, [duration] returns; it is [None] exactly
    when there is no predecessor or some predecessor lacks its time or its
    duration, and otherwise it is the end (time plus duration) of one of
    the predecessors, and no predecessor ends later. *)
Theorem duration_is_latest_end (s : SequenceIR) :
  (forall ind, ind ∈ predecessor_indices (_sequence s) 1 ->
     is_ok (payload_duration s ind) = true) ->
  (duration s = Ok None
   <-> predecessor_indices (_sequence s) 1 = []
       \/ exists ind, ind ∈ predecessor_indices (_sequence s) 1
                      /\ resolved_end s ind = None)
  /\ (forall d, duration s = Ok (Some d) ->
        (exists ind, ind ∈ predecessor_indices (_sequence s) 1
                     /\ resolved_end s ind = Some d)
        /\ forall ind, ind ∈ predecessor_indices (_sequence s) 1 ->
             exists e, resolved_end s ind = Some e /\ e <= d)
  /\ exists r, duration s = Ok r.
Proof.
  intros Hread. rewrite (duration_when_readable s Hread).
  set (preds := predecessor_indices (_sequence s) 1).
  destruct (mapM (resolved_end s) preds) as [ends|] eqn:E; simpl.
  - apply mapM_Some_1 in E.
    pose proof (foldl_larger ends None) as Hmax.
    destruct (foldl larger None ends) as [m|].
    + destruct Hmax as (Hall & _ & Hin).
      split; [|split; [|eauto]].
      * split; [discriminate|]. intros [Hnil | (ind & Hind & Hnone)].
        -- rewrite Hnil in E. inversion E. subst.
           destruct Hin as [Hin | Hin]; [inversion Hin | discriminate].
        -- apply list_elem_of_lookup in Hind as [i Hi].
           destruct (Forall2_lookup_l _ _ _ _ _ E Hi) as (e & _ & He).
           congruence.
      * intros d [= <-]. split.
        -- destruct Hin as [Hin | Hin]; [|discriminate].
           apply list_elem_of_lookup in Hin as [i Hi].
           destruct (Forall2_lookup_r _ _ _ _ _ E Hi) as (ind & Hind & He).
           exists ind. split; [|exact He].
           apply list_elem_of_lookup. eauto.
        -- intros ind Hind. apply list_elem_of_lookup in Hind as [i Hi].
           destruct (Forall2_lookup_l _ _ _ _ _ E Hi) as (e & Hei & He).
           exists e. split; [exact He|].
           rewrite Forall_forall in Hall. apply Hall.
           apply list_elem_of_lookup. eauto.
    + destruct Hmax as [_ ->]. inversion E. subst.
      split; [|split; [discriminate | eauto]].
      split; [left; reflexivity | reflexivity].
  - split; [|split; [discriminate | eauto]].
    split; [|reflexivity]. intros _. right.
    apply mapM_None_1 in E. apply Exists_exists in E as (ind & Hind & Hn).
    eauto.
Qed.

Lemma duration_is_latest_end_witness :
  exists r,
    duration (Examples.with_times Examples.two_plays
                [(2%nat, 30); (3%nat, 10)]) = Ok r.
Proof.
  apply (duration_is_latest_end
           (Examples.with_times Examples.two_plays
              [(2%nat, 30); (3%nat, 10)])).
  intros ind Hind. vm_compute in Hind.
  apply list_elem_of_In in Hind. destruct Hind as [<- | []]. reflexivity.
Defined.

End DurationMore.

(** ** Flattening a program graph *)

Section FlattenMore.

Import Dag IR Consolidate Flatten.

Lemma is_flat_spec (s : SequenceIR) :
  is_flat s = true
  <-> forall i sub, slots (_sequence s) !! i <> Some (Some (Nested sub)).
Proof.
  unfold is_flat. rewrite forallb_forall. split.
  - intros H i sub Hi. apply list_elem_of_lookup_2, list_elem_of_In in Hi.
    specialize (H _ Hi). discriminate.
  - intros H o Ho. apply list_elem_of_In, list_elem_of_lookup in Ho as [i Hi].
    destruct o as [[| | j | sub]|]; try reflexivity.
    exfalso. exact (H i sub Hi).
Qed.

(** The splice of [flatten] and the inlining of the consolidation pass are
    one and the same operation. *)
Lemma splice_is_inline (block : SequenceIR) (ind : nat)
  (sub_block : SequenceIR) :
  splice_flattened block ind sub_block
  = inline_sub_prog block ind sub_block.
Proof.
  unfold splice_flattened, inline_sub_prog.
  change (Flatten.edge_map ind) with (Consolidate.edge_map ind).
  destruct (substitute_node_with_subgraph _ _ _ _) as [[g nodes_mapping]|e];
    [|reflexivity].
  unfold time_table. simpl.
  destruct (_time_table block !! ind) as [t|] eqn:Et.
  - destruct (shift_spliced_times _ _ _ _) as [table st].
    destruct st; reflexivity.
  - rewrite (delete_id _ _ Et). reflexivity.
Qed.

Definition not_nested (x : Node) : Prop :=
  match x with Nested _ => False | _ => True end.

Lemma add_node_no_nested (g : PyDAG Node) (x : Node) (i : nat)
  (sub : SequenceIR) :
  not_nested x ->
  slots (fst (add_node g x)) !! i = Some (Some (Nested sub)) ->
  slots g !! i = Some (Some (Nested sub)).
Proof.
  intros Hx. unfold add_node. destruct (free g) as [| f rest]; simpl.
  - intros H. apply lookup_app_Some in H as [H | [_ H]]; [exact H|].
    apply list_lookup_singleton_Some in H as [_ H].
    injection H as ->. contradiction.
  - intros H. apply list_lookup_insert_Some in H as [(_ & H & _) | [_ H]];
      [|exact H].
    injection H as ->. contradiction.
Qed.

Lemma copy_nodes_no_nested (other : list (option Node)) :
  Forall (fun o => match o with Some x => not_nested x | None => True end)
         other ->
  forall (g : PyDAG Node) k m i sub,
    slots (fst (copy_nodes g other k m)) !! i = Some (Some (Nested sub)) ->
    slots g !! i = Some (Some (Nested sub)).
Proof.
  induction 1 as [| o other Ho _ IH]; intros g k m i sub; simpl; [auto|].
  destruct o as [x|]; [|apply IH].
  destruct (add_node g x) as [g' new] eqn:E. intros H.
  apply IH in H. apply (add_node_no_nested g x); [exact Ho|].
  rewrite E. exact H.
Qed.

Lemma remove_node_no_nested (g : PyDAG Node) (ind i : nat)
  (sub : SequenceIR) :
  slots (remove_node g ind) !! i = Some (Some (Nested sub)) ->
  slots g !! i = Some (Some (Nested sub)) /\ i <> ind.
Proof.
  unfold remove_node. destruct (has_node g ind) eqn:Hhas; simpl.
  - intros H. apply list_lookup_insert_Some in H as [(_ & H & _) | [Hne H]];
      [discriminate|]. split; [exact H | congruence].
  - intros H. split; [exact H|]. intros ->.
    unfold has_node in Hhas. rewrite H in Hhas. discriminate.
Qed.

Lemma remove_node_retain_edges_no_nested (g : PyDAG Node) (ind i : nat)
  (sub : SequenceIR) :
  slots (remove_node_retain_edges g ind) !! i = Some (Some (Nested sub)) ->
  slots g !! i = Some (Some (Nested sub)) /\ i <> ind.
Proof.
  unfold remove_node_retain_edges. intros H.
  apply remove_node_no_nested in H. rewrite slots_add_edges in H. exact H.
Qed.

Lemma substitute_no_nested (g other g' : PyDAG Node) (node : nat)
  (f : nat -> nat -> option nat) (m : NodeMap) (i : nat) (sub : SequenceIR) :
  Forall (fun o => match o with Some x => not_nested x | None => True end)
         (slots other) ->
  substitute_node_with_subgraph g node other f = Ok (g', m) ->
  slots g' !! i = Some (Some (Nested sub)) ->
  slots g !! i = Some (Some (Nested sub)) /\ i <> node.
Proof.
  intros Hother. unfold substitute_node_with_subgraph.
  destruct (negb (has_node g node)); [discriminate|].
  pose proof (copy_nodes_no_nested (slots other) Hother g 0%nat []) as Hcopy.
  destruct (copy_nodes g (slots other) 0 []) as [g1 out_map].
  simpl in Hcopy.
  destruct out_map as [| p out_map'].
  - intros [= <- <-]. apply remove_node_no_nested.
  - set (out_map := p :: out_map') in *.
    match goal with
    | |- context [reattach ?g2 out_map ?pick ?mk ?es] =>
        destruct (reattach g2 out_map pick mk es) as [g3|] eqn:E3;
        simpl; [|discriminate]
    end.
    match goal with
    | |- context [reattach g3 out_map ?pick ?mk ?es] =>
        destruct (reattach g3 out_map pick mk es) as [g4|] eqn:E4;
        simpl; [|discriminate]
    end.
    intros [= <- <-] H. apply remove_node_no_nested in H as [H Hne].
    rewrite (slots_reattach _ _ _ _ _ _ E4), (slots_reattach _ _ _ _ _ _ E3),
      slots_add_edges in H.
    split; [apply Hcopy, H | exact Hne].
Qed.

Lemma flat_slots (s : SequenceIR) :
  is_flat s = true ->
  Forall (fun o => match o with Some x => not_nested x | None => True end)
         (slots (_sequence s)).
Proof.
  intros H. apply Forall_lookup. intros i o Hi.
  destruct o as [[| | j | sub]|]; simpl; auto.
  exact (proj1 (is_flat_spec s) H i sub Hi).
Qed.

Lemma splice_flattened_no_nested (block sub_block : SequenceIR)
  (ind i : nat) (sub : SequenceIR) :
  is_flat sub_block = true ->
  snd (splice_flattened block ind sub_block) = Returned ->
  slots (_sequence (fst (splice_flattened block ind sub_block))) !! i
  = Some (Some (Nested sub)) ->
  slots (_sequence block) !! i = Some (Some (Nested sub)) /\ i <> ind.
Proof.
  intros Hflat. unfold splice_flattened.
  destruct (substitute_node_with_subgraph _ _ _ _)
    as [[g nodes_mapping]|e] eqn:Hsubst; [|discriminate].
  pose proof (fun H => substitute_no_nested _ _ _ _ _ _ i sub
                         (flat_slots _ Hflat) Hsubst H) as Hg.
  destruct (match _time_table block !! ind with
            | Some t => _
            | None => _
            end) as [table st].
  destruct st; try discriminate.
  destruct (node_map_get nodes_mapping 0) as [new_in|]; [|discriminate].
  destruct (node_map_get nodes_mapping 1) as [new_out|]; [|discriminate].
  simpl. intros _ H.
  apply remove_node_retain_edges_no_nested in H as [H _].
  apply remove_node_retain_edges_no_nested in H as [H _].
  apply Hg, H.
Qed.

Section FlattenBody.

Variable recurse : SequenceIR -> SequenceIR * status.
Hypothesis recurse_flat :
  forall sub, snd (recurse sub) = Returned -> is_flat (fst (recurse sub)) = true.

Lemma flatten_node_no_nested (block : SequenceIR) (ind i : nat)
  (sub : SequenceIR) :
  snd (flatten_node recurse block ind) = Returned ->
  slots (_sequence (fst (flatten_node recurse block ind))) !! i
  = Some (Some (Nested sub)) ->
  slots (_sequence block) !! i = Some (Some (Nested sub)) /\ i <> ind.
Proof.
  unfold flatten_node.
  destruct (get_node_data (_sequence block) ind) as [x|e] eqn:Hnode;
    [|discriminate].
  assert (Hplain : not_nested x ->
            slots (_sequence block) !! i = Some (Some (Nested sub)) ->
            slots (_sequence block) !! i = Some (Some (Nested sub))
            /\ i <> ind).
  { intros Hx H. split; [exact H|]. intros ->.
    unfold get_node_data in Hnode. rewrite H in Hnode.
    injection Hnode as <-. contradiction. }
  destruct x as [| | j | sub_block]; try (intros _; apply Hplain; exact I).
  pose proof (recurse_flat sub_block) as Hflat.
  destruct (recurse sub_block) as [sub_block' st]. simpl in Hflat.
  destruct st; try discriminate.
  intros Hret H.
  apply splice_flattened_no_nested in H as [H Hne];
    [|apply Hflat; reflexivity | exact Hret].
  split; [|exact Hne].
  unfold set_node_data in H.
  destruct (has_node (_sequence block) ind); [|exact H].
  simpl in H. rewrite list_lookup_insert_ne in H by congruence. exact H.
Qed.

Lemma flatten_loop_no_nested (inds : list nat) :
  forall block i sub,
    snd (flatten_loop recurse block inds) = Returned ->
    slots (_sequence (fst (flatten_loop recurse block inds))) !! i
    = Some (Some (Nested sub)) ->
    slots (_sequence block) !! i = Some (Some (Nested sub)) /\ i ∉ inds.
Proof.
  induction inds as [| ind inds IH]; intros block i sub; simpl.
  - intros _ H. split; [exact H|]. intros Hin. inversion Hin.
  - pose proof (flatten_node_no_nested block ind i sub) as Hnode.
    destruct (flatten_node recurse block ind) as [block' st].
    simpl in Hnode.
    destruct st; try discriminate.
    intros Hret H. destruct (IH _ _ _ Hret H) as [H' Hnotin].
    destruct (Hnode eq_refl H') as [H0 Hne].
    split; [exact H0|]. intros Hin.
    apply elem_of_cons in Hin as [-> | Hin]; [congruence | contradiction].
Qed.

Lemma flatten_loop_flat_identity (inds : list nat) (block : SequenceIR) :
  is_flat block = true ->
  (forall ind, ind ∈ inds -> has_node (_sequence block) ind = true) ->
  flatten_loop recurse block inds = (block, Returned).
Proof.
  intros Hflat. induction inds as [| ind inds IH]; intros Hin;
    [reflexivity|].
  simpl. unfold flatten_node.
  pose proof (Hin ind ltac:(left)) as Hhas.
  apply has_node_lookup in Hhas as [x Hx].
  unfold get_node_data. rewrite Hx.
  destruct x as [| | j | sub];
    try (apply IH; intros k Hk; apply Hin; right; exact Hk).
  exfalso. exact (proj1 (is_flat_spec block) Hflat ind sub Hx).
Qed.

End FlattenBody.

Lemma flatten_inplace_flat (fuel : nat) :
  forall block,
    snd (flatten_inplace fuel block) = Returned ->
    is_flat (fst (flatten_inplace fuel block)) = true.
Proof.
  induction fuel as [| fuel IH]; intros block; simpl; [discriminate|].
  intros Hret. apply is_flat_spec. intros i sub Hi.
  destruct (flatten_loop_no_nested (flatten_inplace fuel) IH _ _ _ _ Hret Hi)
    as [H Hnotin].
  apply Hnotin, node_indices_spec. eauto.
Qed.

Lemma flatten_inplace_flat_identity (fuel : nat) (block : SequenceIR) :
  is_flat block = true ->
  flatten_inplace (S fuel) block = (block, Returned).
Proof.
  intros Hflat. simpl. apply flatten_loop_flat_identity; [exact Hflat|].
  intros ind Hind. apply node_indices_spec in Hind.
  apply has_node_lookup. exact Hind.
Qed.

Section FlattenFuel.

Variable recurse : SequenceIR -> SequenceIR * status.
Variable d : nat.
Hypothesis recurse_ok :
  forall sub, (nesting_depth sub <= d)%nat ->
    snd (recurse sub) <> OutOfFuel
    /\ (nesting_depth (fst (recurse sub)) <= nesting_depth sub)%nat.

Lemma flatten_node_depth (block : SequenceIR) (ind : nat) :
  depth_le d (_sequence block) ->
  snd (flatten_node recurse block ind) <> OutOfFuel
  /\ depth_le d (_sequence (fst (flatten_node recurse block ind))).
Proof.
  intros Hp. unfold flatten_node.
  destruct (get_node_data (_sequence block) ind) as [[| | i | sub_block]|e]
    eqn:Hnode; try (split; [discriminate | exact Hp]).
  pose proof (depth_le_get_node_data d _ _ _ Hp Hnode) as Hsub.
  simpl in Hsub.
  destruct (recurse_ok sub_block Hsub) as [Hst Hdepth].
  destruct (recurse sub_block) as [sub_block' st]. simpl in Hst, Hdepth.
  set (block' := match set_node_data _ _ _ with
                 | Ok g => with_sequence block g
                 | Raise _ => block
                 end).
  assert (Hp' : depth_le d (_sequence block')).
  { subst block'.
    destruct (set_node_data _ _ _) as [g|] eqn:Hset; [|exact Hp].
    simpl. eapply depth_le_set_node_data; [exact Hp | | exact Hset].
    simpl. lia. }
  destruct st; try (split; [try discriminate; congruence | exact Hp']).
  rewrite splice_is_inline.
  apply inline_sub_prog_depth with (recurse := recurse);
    first [exact recurse_ok | exact Hp' | lia].
Qed.

Lemma flatten_loop_depth (inds : list nat) :
  forall block,
    depth_le d (_sequence block) ->
    snd (flatten_loop recurse block inds) <> OutOfFuel
    /\ depth_le d (_sequence (fst (flatten_loop recurse block inds))).
Proof.
  induction inds as [| ind inds IH]; intros block Hp; simpl;
    [split; [discriminate | exact Hp]|].
  destruct (flatten_node_depth block ind Hp) as [Hst Hp'].
  destruct (flatten_node recurse block ind) as [block' st].
  simpl in Hst, Hp'.
  destruct st; try (split; [try discriminate; congruence | exact Hp']).
  apply IH, Hp'.
Qed.

End FlattenFuel.

Lemma flatten_inplace_fuel (fuel : nat) :
  forall block,
    (nesting_depth block <= fuel)%nat ->
    snd (flatten_inplace fuel block) <> OutOfFuel
    /\ (nesting_depth (fst (flatten_inplace fuel block))
        <= nesting_depth block)%nat.
Proof.
  induction fuel as [| fuel IH]; intros block Hfuel.
  - pose proof (nesting_depth_unfold block). lia.
  - simpl. pose proof (nesting_depth_unfold block) as Hd.
    set (d := max_list (node_depth <$> slots (_sequence block))) in *.
    assert (Hp : depth_le d (_sequence block))
      by (apply nesting_depth_le; lia).
    assert (Hrec : forall sub, (nesting_depth sub <= d)%nat ->
               snd (flatten_inplace fuel sub) <> OutOfFuel
               /\ (nesting_depth (fst (flatten_inplace fuel sub))
                   <= nesting_depth sub)%nat).
    { intros sub Hsub. apply IH. lia. }
    destruct (flatten_loop_depth (flatten_inplace fuel) d Hrec
                (node_indices (_sequence block)) block Hp) as [Hst Hp'].
    split; [exact Hst|]. rewrite Hd. apply nesting_depth_le. exact Hp'.
Qed.

(** *** The alignment is kept *)

Lemma splice_flattened_alignment (block sub_block : SequenceIR) (ind : nat) :
  alignment (fst (splice_flattened block ind sub_block)) = alignment block.
Proof.
  unfold splice_flattened.
  destruct (substitute_node_with_subgraph _ _ _ _) as [[g nodes_mapping]|e];
    [|reflexivity].
  destruct (match _time_table block !! ind with
            | Some t => _
            | None => _
            end) as [table st].
  destruct st; try reflexivity.
  destruct (node_map_get nodes_mapping 0); [|reflexivity].
  destruct (node_map_get nodes_mapping 1); reflexivity.
Qed.

Lemma flatten_node_alignment (recurse : SequenceIR -> SequenceIR * status)
  (block : SequenceIR) (ind : nat) :
  alignment (fst (flatten_node recurse block ind)) = alignment block.
Proof.
  unfold flatten_node.
  destruct (get_node_data (_sequence block) ind) as [[| | i | sub_block]|e];
    try reflexivity.
  destruct (recurse sub_block) as [sub_block' st].
  set (block' := match set_node_data _ _ _ with
                 | Ok g => with_sequence block g
                 | Raise _ => block
                 end).
  assert (Hal : alignment block' = alignment block)
    by (subst block'; destruct (set_node_data _ _ _); reflexivity).
  destruct st; try exact Hal.
  rewrite splice_flattened_alignment. exact Hal.
Qed.

Lemma flatten_loop_alignment (recurse : SequenceIR -> SequenceIR * status)
  (inds : list nat) :
  forall block,
    alignment (fst (flatten_loop recurse block inds)) = alignment block.
Proof.
  induction inds as [| ind inds IH]; intros block; simpl; [reflexivity|].
  pose proof (flatten_node_alignment recurse block ind) as Hnode.
  destruct (flatten_node recurse block ind) as [block' st]. simpl in Hnode.
  destruct st; try exact Hnode.
  rewrite IH. exact Hnode.
Qed.

Lemma flatten_inplace_alignment (fuel : nat) (block : SequenceIR) :
  alignment (fst (flatten_inplace fuel block)) = alignment block.
Proof.
  destruct fuel as [| fuel]; [reflexivity|].
  simpl. apply flatten_loop_alignment.
Qed.

Lemma fresh_copy_alignment (self copy : SequenceIR) :
  fresh_copy self = Ok copy -> alignment copy = alignment self.
Proof.
  unfold fresh_copy.
  destruct (set_node_data (_sequence self) 0 InNode) as [g0|]; simpl;
    [|discriminate].
  destruct (set_node_data g0 1 OutNode) as [g1|]; simpl; [|discriminate].
  intros [= <-]. reflexivity.
Qed.

Lemma set_node_data_same (g : PyDAG Node) (ind : nat) (x : Node) :
  slots g !! ind = Some (Some x) -> set_node_data g ind x = Ok g.
Proof.
  intros H. unfold set_node_data.
  replace (has_node g ind) with true
    by (symmetry; apply has_node_lookup; eauto).
  rewrite (list_insert_id _ _ _ H). destruct g. reflexivity.
Qed.

Lemma fresh_copy_same (self : SequenceIR) :
  slots (_sequence self) !! 0%nat = Some (Some InNode) ->
  slots (_sequence self) !! 1%nat = Some (Some OutNode) ->
  fresh_copy self = Ok self.
Proof.
  intros H0 H1. unfold fresh_copy.
  rewrite (set_node_data_same _ _ _ H0). simpl.
  rewrite (set_node_data_same _ _ _ H1). simpl.
  destruct self. reflexivity.
Qed.

(** X18: [SequenceIR.flatten], in place or on a copy, always comes to an
    end; the block it works on keeps its alignment; and when the call
    returns, no node of the returned block holds a nested [SequenceIR]. *)
Theorem flatten_returns_flat_program (self : SequenceIR) (inplace : bool) :
  snd (flatten self inplace) <> OutOfFuel
  /\ alignment (snd (fst (flatten self inplace))) = alignment self
  /\ (snd (flatten self inplace) = Returned ->
      is_flat (snd (fst (flatten self inplace))) = true).
Proof.
  assert (Hin : forall block,
            snd (flatten_inplace (nesting_depth block) block) <> OutOfFuel
            /\ alignment (fst (flatten_inplace (nesting_depth block) block))
               = alignment block
            /\ (snd (flatten_inplace (nesting_depth block) block) = Returned ->
                is_flat (fst (flatten_inplace (nesting_depth block) block))
                = true)).
  { intros block. split; [|split].
    - apply flatten_inplace_fuel. lia.
    - apply flatten_inplace_alignment.
    - apply flatten_inplace_flat. }
  unfold flatten. destruct inplace.
  - specialize (Hin self).
    destruct (flatten_inplace (nesting_depth self) self) as [block st].
    exact Hin.
  - destruct (fresh_copy self) as [copy|e] eqn:Hcopy.
    + specialize (Hin copy).
      rewrite (fresh_copy_alignment _ _ Hcopy) in Hin.
      destruct (flatten_inplace (nesting_depth copy) copy) as [block st].
      exact Hin.
    + simpl. split; [discriminate|]. split; [reflexivity | discriminate].
Qed.

(** X19: a program without nested programs, with the two sentinels at
    nodes 0 and 1, is returned as it is by [flatten], in place or not. *)
Theorem flatten_of_flat_program (self : SequenceIR) (inplace : bool) :
  is_flat self = true ->
  slots (_sequence self) !! 0%nat = Some (Some InNode) ->
  slots (_sequence self) !! 1%nat = Some (Some OutNode) ->
  flatten self inplace = (self, self, Returned).
Proof.
  intros Hflat H0 H1. unfold flatten.
  rewrite (fresh_copy_same _ H0 H1).
  rewrite nesting_depth_unfold.
  rewrite (flatten_inplace_flat_identity _ _ Hflat).
  destruct inplace; reflexivity.
Qed.

Lemma flatten_of_flat_program_witness :
  flatten Examples.two_plays false
  = (Examples.two_plays, Examples.two_plays, Returned).
Proof.
  apply (flatten_of_flat_program Examples.two_plays false); reflexivity.
Defined.

(** X20: what [flatten] does with a flattened nested block (substitute
    its graph for its node, move the times of its nodes by the time of the
    node, delete the node's entry, remove the two copied sentinels) is what
    the consolidation pass does when it inlines a nested program. *)
Theorem flatten_splices_as_pass_inlines (block : SequenceIR) (ind : nat)
  (sub_block : SequenceIR) :
  splice_flattened block ind sub_block
  = inline_sub_prog block ind sub_block.
Proof. apply splice_is_inline. Qed.

End FlattenMore.

(** ** More on the consolidation pass *)

Section ConsolidateMore.

Import Dag IR Consolidate Transforms.

Lemma inline_sub_prog_alignment (prog sub_prog : SequenceIR) (ind : nat) :
  alignment (fst (inline_sub_prog prog ind sub_prog)) = alignment prog.
Proof.
  rewrite <- splice_is_inline. apply splice_flattened_alignment.
Qed.

Lemma replace_by_single_alignment (prog sub_prog : SequenceIR) (ind : nat) :
  alignment (fst (replace_by_single prog ind sub_prog)) = alignment prog.
Proof.
  unfold replace_by_single.
  destruct (elements sub_prog); [reflexivity|].
  destruct (set_node_data _ _ _); reflexivity.
Qed.

Lemma consolidate_node_alignment
  (recurse : SequenceIR -> SequenceIR * status) (prog : SequenceIR)
  (ind : nat) :
  alignment (fst (consolidate_node recurse prog ind)) = alignment prog.
Proof.
  unfold consolidate_node.
  destruct (is_sentinel_index ind); [reflexivity|].
  destruct (get_node_data (_sequence prog) ind) as [[| | i | sub_prog]|e];
    try reflexivity.
  destruct (bool_decide _); [reflexivity|].
  destruct (recurse sub_prog) as [sub_prog' st].
  set (prog' := match set_node_data _ _ _ with
                | Ok g => with_sequence prog g
                | Raise _ => prog
                end).
  assert (Hal : alignment prog' = alignment prog)
    by (subst prog'; destruct (set_node_data _ _ _); reflexivity).
  destruct st; try exact Hal.
  destruct (_ && _); [rewrite replace_by_single_alignment; exact Hal|].
  destruct (_ && _); [rewrite inline_sub_prog_alignment; exact Hal|].
  exact Hal.
Qed.

Lemma consolidate_loop_alignment
  (recurse : SequenceIR -> SequenceIR * status) (inds : list nat) :
  forall prog,
    alignment (fst (consolidate_loop recurse prog inds)) = alignment prog.
Proof.
  induction inds as [| ind inds IH]; intros prog; simpl; [reflexivity|].
  pose proof (consolidate_node_alignment recurse prog ind) as Hnode.
  destruct (consolidate_node recurse prog ind) as [prog' st].
  simpl in Hnode.
  destruct st; try exact Hnode.
  rewrite IH. exact Hnode.
Qed.

Lemma consolidate_loop_flat_identity
  (recurse : SequenceIR -> SequenceIR * status) (inds : list nat)
  (prog : SequenceIR) :
  is_flat prog = true ->
  (forall ind, ind ∈ inds -> has_node (_sequence prog) ind = true) ->
  consolidate_loop recurse prog inds = (prog, Returned).
Proof.
  intros Hflat. induction inds as [| ind inds IH]; intros Hin;
    [reflexivity|].
  assert (Hrest : consolidate_loop recurse prog inds = (prog, Returned))
    by (apply IH; intros k Hk; apply Hin; right; exact Hk).
  simpl. unfold consolidate_node.
  destruct (is_sentinel_index ind); [exact Hrest|].
  pose proof (Hin ind ltac:(left)) as Hhas.
  apply has_node_lookup in Hhas as [x Hx].
  unfold get_node_data. rewrite Hx.
  destruct x as [| | j | sub]; try exact Hrest.
  exfalso. exact (proj1 (is_flat_spec prog) Hflat ind sub Hx).
Qed.

(** X21: the consolidation pass always comes to an end, and the program
    it leaves is nested no deeper than the program it was given. *)
Theorem consolidation_never_deepens (prog : SequenceIR) :
  snd (run prog) <> OutOfFuel
  /\ (nesting_depth (fst (run prog)) <= nesting_depth prog)%nat.
Proof. apply consolidate_recursion_fuel. lia. Qed.

(** X22: the consolidation pass never changes the alignment of the
    program it is given, whether it returns or raises. *)
Theorem consolidation_keeps_alignment (prog : SequenceIR) :
  alignment (fst (run prog)) = alignment prog.
Proof.
  unfold run. destruct (nesting_depth prog) as [| fuel]; [reflexivity|].
  simpl. destruct (already_scheduled prog); [reflexivity|].
  apply consolidate_loop_alignment.
Qed.

(** X23: a program that holds no nested program and no time is returned
    by the consolidation pass as it is. *)
Theorem consolidation_leaves_flat_program (prog : SequenceIR) :
  is_flat prog = true ->
  already_scheduled prog = false ->
  run prog = (prog, Returned).
Proof.
  intros Hflat Hsched. unfold run. rewrite nesting_depth_unfold. simpl.
  rewrite Hsched. apply consolidate_loop_flat_identity; [exact Hflat|].
  intros ind Hind. apply node_indices_spec in Hind.
  apply has_node_lookup. exact Hind.
Qed.

Lemma consolidation_leaves_flat_program_witness :
  run Examples.two_plays = (Examples.two_plays, Returned).
Proof.
  apply (consolidation_leaves_flat_program Examples.two_plays); reflexivity.
Defined.

End ConsolidateMore.
